(** * Album buffer (album_buffer.go): a shallow embedding and its properties

    The Go file keeps one [AlbumBuffer]: a map from album id to a pending
    [AlbumData], each with a [time.Timer] whose callback flushes the album.
    The embedding follows the file function by function.  The logger and the
    webhook sender are output effects, recorded in order in a trace; the
    monotonic clock and the timers of the Go runtime are part of the state. *)

From stdpp Require Import gmap strings list fin_maps sorting.
From Stdlib Require Import ZArith Lia.

Set Warnings "-register-all,-clear-no-such-hyp".
Local Open Scope string_scope.
Local Open Scope list_scope.
Local Open Scope Z_scope.

(** ** Dynamic values

    [interface{}] values as they occur in a decoded message envelope.  A Go
    map is a reference that may be nil: [None] is the nil map, which reads as
    an empty map. *)

Inductive value : Type :=
  | VNil
  | VBool (b : bool)
  | VNum (n : Z)
  | VStr (s : string)
  | VSlice (l : list value)
  | VMap (m : option (gmap string value)).

(** [map[string]interface{}] *)
Abbreviation gomap := (option (gmap string value)).

(** [m[k]] on a possibly nil map: the zero value (the nil interface) when the
    key is absent. *)
Definition index (m : gomap) (k : string) : value :=
  match m with
  | None => VNil
  | Some g => default VNil (g !! k)
  end.

(** The type assertion [v.(map[string]interface{})], comma-ok form. *)
Definition assert_map (v : value) : gomap * bool :=
  match v with
  | VMap m => (m, true)
  | _ => (None, false)
  end.

(** The type assertion [v.(string)], comma-ok form. *)
Definition assert_string (v : value) : string * bool :=
  match v with
  | VStr s => (s, true)
  | _ => ("", false)
  end.

(** [s != ""] *)
Definition nonempty (s : string) : bool :=
  match s with
  | EmptyString => false
  | String _ _ => true
  end.

Definition HasParentMessageKey (msgContext : gomap) : string * bool :=
  match msgContext with
  | None => ("", false)
  | Some _ =>
      let '(msgAssoc, ok) := assert_map (index msgContext "messageAssociation") in
      if ok then
        let '(parentKey, ok) := assert_map (index msgAssoc "parentMessageKey") in
        if ok then
          let '(id, ok) := assert_string (index parentKey "ID") in
          if ok && nonempty id then (id, true) else ("", false)
        else ("", false)
      else ("", false)
  end.

(** The envelope holds a non-empty string at
    [messageAssociation.parentMessageKey.ID], every level on the way being a
    map. *)
Definition parent_key_at (msgContext : gomap) (id : string) : Prop :=
  ∃ ctx assoc parent : gmap string value,
    msgContext = Some ctx ∧
    ctx !! "messageAssociation" = Some (VMap (Some assoc)) ∧
    assoc !! "parentMessageKey" = Some (VMap (Some parent)) ∧
    parent !! "ID" = Some (VStr id) ∧
    id ≠ "".

(** ** Data model *)

Record AlbumMessage : Type := {
  ID : string;
  URL : string;
  Base64 : string;
  MimeType : string;
  FileName : string;
  S3 : gomap
}.

(** The referent of a [*MyClient]; the buffer only stores the pointer and
    passes it on. *)
Inductive MyClient : Type := MyClientAt (addr : N).

(** A [time.Time]: an instant and the offset of its location. *)
Record Time : Type := { unix_nano : Z; zone_offset : Z }.

(** A [time.Timer] made by [time.AfterFunc]: the instant of the monotonic
    clock at which the callback runs, and whether the timer is still armed. *)
Record time_Timer : Type := { when : Z; active : bool }.

Record AlbumData : Type := {
  AlbumID : string;
  ChatJID : string;
  SenderJID : string;
  SenderAlt : string;
  Caption : string;
  Timestamp : Time;
  Messages : list AlbumMessage;
  Timer : option time_Timer;
  UserID : string;
  Token : string;
  MyCli : option MyClient
}.

Module Payload.
Record AlbumWebhookPayload : Type := {
  Type_ : string;
  AlbumID : string;
  Sender : string;
  SenderLid : string;
  Chat : string;
  Caption : string;
  Timestamp : string;
  TotalImages : Z;
  Images : list AlbumMessage
}.
End Payload.

(** The values stored in the [postmap] handed to the webhook sender. *)
Inductive postval : Type :=
  | PStr (s : string)
  | PInt (n : Z)
  | PImages (l : list AlbumMessage).

(** What the buffer does to the outside: the log lines it writes and the
    calls of [sendEventWithWebHook]. *)
Inductive effect : Type :=
  | LogInitialized (waitSeconds : Z) (enabled : bool)
  | LogNewAlbum (albumId chat : string) (waitSeconds : Z)
  | LogMessageAdded (albumId messageId : string) (totalMessages : Z)
  | LogFlushing (albumId : string) (totalImages : Z) (chat : string)
  | LogCancelled (albumId : string)
  | SendEventWithWebHook (mycli : MyClient) (postmap : gmap string postval)
      (path : string).

(** The buffer together with the runtime around it and the trace of effects
    so far.  The mutex makes each critical section atomic; one call of a
    function below is one critical section (and, for a flush, the delivery
    after it).

    The timer of an open album is kept in the album: only the album and the
    runtime refer to it.  [orphans] are the timers of albums that were
    removed from the map while still armed, each with the album id its
    callback flushes.  [started] are the callbacks of timers that have
    expired, each a goroutine that has yet to take the lock and run
    [flushAlbum] on its album id. *)
Record World : Type := {
  albums : gmap string AlbumData;
  waitSeconds : Z;
  enabled : bool;
  clock : Z;
  orphans : list (string * time_Timer);
  started : list string;
  trace : list effect
}.

(** A call either returns or panics (nil pointer dereference). *)
Inductive result (A : Type) : Type :=
  | Ok (a : A)
  | Panic.
Arguments Ok {A} a.
Arguments Panic {A}.

(** ** Durations and timers *)

Definition wrap64 (z : Z) : Z := (z + 2 ^ 63) mod 2 ^ 64 - 2 ^ 63.

Definition time_Second : Z := 1000000000.

(** [time.Duration(ab.waitSeconds) * time.Second] *)
Definition debounce (w : World) : Z := wrap64 (waitSeconds w * time_Second).

(** The runtime's deadline for a duration [d] asked at [now]. *)
Definition deadline (d now : Z) : Z := if d <=? 0 then now else now + d.

Definition AfterFunc (d now : Z) : time_Timer :=
  {| when := deadline d now; active := true |}.

(** [t.Reset(d)]: arms the timer for [d] from now, and reports whether it
    was still armed.  A callback that an expired timer has already started
    is not recalled. *)
Definition Reset (d now : Z) (t : time_Timer) : bool * time_Timer :=
  (active t, {| when := deadline d now; active := true |}).

(** [t.Stop()]: disarms the timer, and reports whether it was still armed.
    A callback already started is not recalled. *)
Definition Stop (t : time_Timer) : bool * time_Timer :=
  (active t, {| when := when t; active := false |}).

(** ** Field updates *)

Definition set_Caption (c : string) (a : AlbumData) : AlbumData :=
  {| AlbumID := AlbumID a; ChatJID := ChatJID a; SenderJID := SenderJID a;
     SenderAlt := SenderAlt a; Caption := c; Timestamp := Timestamp a;
     Messages := Messages a; Timer := Timer a; UserID := UserID a;
     Token := Token a; MyCli := MyCli a |}.

Definition set_Timer (t : option time_Timer) (a : AlbumData) : AlbumData :=
  {| AlbumID := AlbumID a; ChatJID := ChatJID a; SenderJID := SenderJID a;
     SenderAlt := SenderAlt a; Caption := Caption a; Timestamp := Timestamp a;
     Messages := Messages a; Timer := t; UserID := UserID a;
     Token := Token a; MyCli := MyCli a |}.

Definition set_Messages (l : list AlbumMessage) (a : AlbumData) : AlbumData :=
  {| AlbumID := AlbumID a; ChatJID := ChatJID a; SenderJID := SenderJID a;
     SenderAlt := SenderAlt a; Caption := Caption a; Timestamp := Timestamp a;
     Messages := l; Timer := Timer a; UserID := UserID a;
     Token := Token a; MyCli := MyCli a |}.

Definition set_albums (m : gmap string AlbumData) (w : World) : World :=
  {| albums := m; waitSeconds := waitSeconds w; enabled := enabled w;
     clock := clock w; orphans := orphans w; started := started w;
     trace := trace w |}.

Definition set_clock (t : Z) (w : World) : World :=
  {| albums := albums w; waitSeconds := waitSeconds w; enabled := enabled w;
     clock := t; orphans := orphans w; started := started w;
     trace := trace w |}.

Definition set_orphans (l : list (string * time_Timer)) (w : World) : World :=
  {| albums := albums w; waitSeconds := waitSeconds w; enabled := enabled w;
     clock := clock w; orphans := l; started := started w;
     trace := trace w |}.

Definition set_started (l : list string) (w : World) : World :=
  {| albums := albums w; waitSeconds := waitSeconds w; enabled := enabled w;
     clock := clock w; orphans := orphans w; started := l;
     trace := trace w |}.

(** Append one effect to the trace. *)
Definition emit (e : effect) (w : World) : World :=
  {| albums := albums w; waitSeconds := waitSeconds w; enabled := enabled w;
     clock := clock w; orphans := orphans w; started := started w;
     trace := trace w ++ [e] |}.

(** [len(s)] as a Go [int] *)
Definition len {A} (l : list A) : Z := Z.of_nat (length l).

(** Sequencing of calls that may panic. *)
#[global] Instance result_ret : MRet result := @Ok.
#[global] Instance result_bind : MBind result := λ A B f r,
  match r with
  | Ok a => f a
  | Panic => Panic
  end.

(** ** The buffer's operations *)

Definition InitAlbumBuffer (ws : Z) (en : bool) (now : Z) : World :=
  {| albums := ∅; waitSeconds := ws; enabled := en; clock := now;
     orphans := []; started := []; trace := [LogInitialized ws en] |}.

Definition IsEnabled (w : World) : bool := enabled w.

(** The caption update of [AddMessage] on an album that exists.  [&&] does
    not evaluate its right operand when the left one is false, so a nil
    [metadata] is only dereferenced while the album's caption is empty. *)
Definition merge_caption (album : AlbumData) (metadata : option AlbumData)
    : result AlbumData :=
  if nonempty (Caption album) then Ok album
  else
    match metadata with
    | None => Panic
    | Some md =>
        if nonempty (Caption md) then Ok (set_Caption (Caption md) album)
        else Ok album
    end.

(** [album.Timer.Reset(...)] behind its nil check; the result of [Reset] is
    dropped. *)
Definition reset_timer (d now : Z) (album : AlbumData) : AlbumData :=
  match Timer album with
  | Some t => set_Timer (Some (Reset d now t).2) album
  | None => album
  end.

(** [album.Timer.Stop()] behind its nil check; the result of [Stop] is
    dropped. *)
Definition stop_timer (album : AlbumData) : AlbumData :=
  match Timer album with
  | Some t => set_Timer (Some (Stop t).2) album
  | None => album
  end.

(** [delete(ab.albums, albumID)].  The map forgets the album; the runtime
    does not forget its timer if that is still armed. *)
Definition remove_album (albumID : string) (album : AlbumData) (w : World)
    : World :=
  let w := set_albums (delete albumID (albums w)) w in
  match Timer album with
  | Some t =>
      if active t then set_orphans (orphans w ++ [(albumID, t)]) w else w
  | None => w
  end.

(** The common tail of [AddMessage]: append, log, return.  [album] is the
    pointer held in the map, so the map sees the appended message. *)
Definition append_message (albumID : string) (msg : AlbumMessage)
    (album : AlbumData) (w : World) : World :=
  let album := set_Messages (Messages album ++ [msg]) album in
  let w := set_albums (<[albumID := album]> (albums w)) w in
  emit (LogMessageAdded albumID (ID msg) (len (Messages album))) w.

Definition AddMessage (albumID : string) (msg : AlbumMessage)
    (metadata : option AlbumData) (w : World) : result (bool * World) :=
  match albums w !! albumID with
  | None =>
      md ← (match metadata with Some md => Ok md | None => Panic end);
      let album :=
        {| AlbumID := albumID; ChatJID := ChatJID md;
           SenderJID := SenderJID md; SenderAlt := SenderAlt md;
           Caption := Caption md; Timestamp := Timestamp md;
           Messages := []; Timer := None; UserID := UserID md;
           Token := Token md; MyCli := MyCli md |} in
      let album := set_Timer (Some (AfterFunc (debounce w) (clock w))) album in
      let w := emit (LogNewAlbum albumID (ChatJID md) (waitSeconds w)) w in
      Ok (true, append_message albumID msg album w)
  | Some album =>
      album ← merge_caption album metadata;
      let album := reset_timer (debounce w) (clock w) album in
      Ok (false, append_message albumID msg album w)
  end.

Definition CancelAlbum (albumID : string) (w : World) : World :=
  match albums w !! albumID with
  | Some album =>
      let album := stop_timer album in
      emit (LogCancelled albumID) (remove_album albumID album w)
  | None => w
  end.

Definition GetPendingCount (w : World) : Z := Z.of_nat (size (albums w)).

Section Flush.

(** [t.Format(time.RFC3339)] of the Go library. *)
Variable Format_RFC3339 : Time → string.

Definition build_payload (album : AlbumData) : Payload.AlbumWebhookPayload :=
  {| Payload.Type_ := "MessageAlbum";
     Payload.AlbumID := AlbumID album;
     Payload.Sender := SenderAlt album;
     Payload.SenderLid := SenderJID album;
     Payload.Chat := ChatJID album;
     Payload.Caption := Caption album;
     Payload.Timestamp := Format_RFC3339 (Timestamp album);
     Payload.TotalImages := len (Messages album);
     Payload.Images := Messages album |}.

Definition build_postmap (payload : Payload.AlbumWebhookPayload)
    : gmap string postval :=
  let postmap : gmap string postval := ∅ in
  let postmap := <["type" := PStr "MessageAlbum"]> postmap in
  let postmap := <["albumId" := PStr (Payload.AlbumID payload)]> postmap in
  let postmap := <["sender" := PStr (Payload.Sender payload)]> postmap in
  let postmap := <["senderLid" := PStr (Payload.SenderLid payload)]> postmap in
  let postmap := <["chat" := PStr (Payload.Chat payload)]> postmap in
  let postmap := <["caption" := PStr (Payload.Caption payload)]> postmap in
  let postmap := <["timestamp" := PStr (Payload.Timestamp payload)]> postmap in
  let postmap := <["totalImages" := PInt (Payload.TotalImages payload)]> postmap in
  let postmap := <["images" := PImages (Payload.Images payload)]> postmap in
  postmap.

(** The part of [flushAlbum] after the lock is released. *)
Definition dispatch (albumID : string) (album : AlbumData) (w : World) : World :=
  let w := emit (LogFlushing albumID (len (Messages album)) (ChatJID album)) w in
  let payload := build_payload album in
  match MyCli album with
  | Some cli => emit (SendEventWithWebHook cli (build_postmap payload) "") w
  | None => w
  end.

(** The critical section looks the album up, stops its timer and deletes
    it; the rest runs on the album taken out. *)
Definition flushAlbum (albumID : string) (w : World) : World :=
  match albums w !! albumID with
  | None => w
  | Some album =>
      let album := stop_timer album in
      dispatch albumID album (remove_album albumID album w)
  end.

(** ** The passage of time

    An armed timer expires once the clock has reached its deadline: it is
    then no longer armed, and its callback [ab.flushAlbum(albumID)] is
    started, in a goroutine of its own.  Timers expire in the order of their
    deadlines. *)

Definition expired (now : Z) (t : time_Timer) : bool :=
  active t && (when t <=? now).

(** The album's timer is armed and its deadline has come. *)
Definition due (now : Z) (album : AlbumData) : bool :=
  match Timer album with
  | Some t => active t && (when t <=? now)
  | None => false
  end.

(** The timer after it has expired. *)
Definition ran (t : time_Timer) : time_Timer :=
  {| when := when t; active := false |}.

Definition expire_album (now : Z) (album : AlbumData) : AlbumData :=
  if due now album then set_Timer (ran <$> Timer album) album else album.

(** All timers the runtime knows, each with the album id of its callback. *)
Definition timers (w : World) : list (string * time_Timer) :=
  omap (λ ka : string * AlbumData, (λ t, (ka.1, t)) <$> Timer ka.2)
    (map_to_list (albums w))
  ++ orphans w.

Definition fires_before (x y : string * time_Timer) : Prop :=
  when x.2 ≤ when y.2.

#[global] Instance fires_before_dec x y : Decision (fires_before x y) :=
  decide (when x.2 ≤ when y.2).

(** The album ids of the callbacks of the timers that expire by [now]. *)
Definition due_keys (now : Z) (w : World) : list string :=
  (merge_sort fires_before
     (filter (λ kt, expired now kt.2 = true) (timers w))).*1.

(** The clock goes on by [dt]: the timers that are due expire. *)
Definition expire (dt : Z) (w : World) : World :=
  {| albums := expire_album (clock w + dt) <$> albums w;
     waitSeconds := waitSeconds w; enabled := enabled w;
     clock := clock w + dt;
     orphans := filter (λ kt, expired (clock w + dt) kt.2 = false) (orphans w);
     started := started w; trace := trace w |}.

(** Time passes, and the callbacks of the timers that expire are started;
    none of them has run yet. *)
Definition tick (dt : Z) (w : World) : World :=
  set_started (started w ++ due_keys (clock w + dt) w) (expire dt w).

Fixpoint remove_first (k : string) (l : list string) : list string :=
  match l with
  | [] => []
  | x :: l => if decide (x = k) then l else x :: remove_first k l
  end.

(** A started callback for [albumID] takes the lock and runs; nothing
    happens if no such callback is waiting. *)
Definition callback (albumID : string) (w : World) : World :=
  if decide (albumID ∈ started w)
  then flushAlbum albumID (set_started (remove_first albumID (started w)) w)
  else w.

(** Time passes and every callback it starts runs at once, before anything
    else happens. *)
Definition elapse (dt : Z) (w : World) : World :=
  foldl (λ w albumID, flushAlbum albumID w) (expire dt w)
    (due_keys (clock w + dt) w).

(** ** Runs: producers' calls and the passage of time, in order

    In a run every callback runs the moment its timer expires. *)

Inductive op : Type :=
  | OpAdd (albumID : string) (msg : AlbumMessage) (metadata : option AlbumData)
  | OpCancel (albumID : string)
  | OpElapse (dt : Z).

(** One operation; returns, with the next state, the [wasCreated] result of
    an [AddMessage] call with its key. *)
Definition exec (o : op) (w : World) : result (list (string * bool) * World) :=
  match o with
  | OpAdd albumID msg metadata =>
      '(isFirst, w) ← AddMessage albumID msg metadata w;
      Ok ([(albumID, isFirst)], w)
  | OpCancel albumID => Ok ([], CancelAlbum albumID w)
  | OpElapse dt => Ok ([], elapse dt w)
  end.

(** Runs the operations in order and collects the results. *)
Fixpoint run (ops : list op) (w : World)
    : result (list (string * bool) * World) :=
  match ops with
  | [] => Ok ([], w)
  | o :: ops =>
      '(flags1, w) ← exec o w;
      '(flags2, w) ← run ops w;
      Ok (flags1 ++ flags2, w)
  end.

(** ** Schedules

    In a schedule a callback runs when the scheduler lets it, at any moment
    after its timer has expired; and a call of [AddMessage] takes time: it
    completes [took] after its timer operation, holding the lock till
    then. *)

Inductive event : Type :=
  | EvAdd (albumID : string) (msg : AlbumMessage) (metadata : option AlbumData)
      (took : Z)
  | EvCancel (albumID : string)
  | EvTick (dt : Z)
  | EvCallback (albumID : string).

(** One event; for a call of [AddMessage] it returns the key, the result
    and the time at which the call completed. *)
Definition step (e : event) (w : World)
    : result (list (string * bool * Z) * World) :=
  match e with
  | EvAdd albumID msg metadata took =>
      '(isFirst, w) ← AddMessage albumID msg metadata w;
      let w := tick took w in
      Ok ([(albumID, isFirst, clock w)], w)
  | EvCancel albumID => Ok ([], CancelAlbum albumID w)
  | EvTick dt => Ok ([], tick dt w)
  | EvCallback albumID => Ok ([], callback albumID w)
  end.

Fixpoint play (evs : list event) (w : World)
    : result (list (string * bool * Z) * World) :=
  match evs with
  | [] => Ok ([], w)
  | e :: evs =>
      '(res1, w) ← step e w;
      '(res2, w) ← play evs w;
      Ok (res1 ++ res2, w)
  end.

End Flush.

(** ** Observations on traces *)

(** The effects added to the trace between two states of one run. *)
Definition since (w w' : World) : list effect :=
  drop (length (trace w)) (trace w').

Definition flushes (k : string) (e : effect) : bool :=
  match e with
  | LogFlushing a _ _ => bool_decide (a = k)
  | _ => false
  end.

Definition cancels (k : string) (e : effect) : bool :=
  match e with
  | LogCancelled a => bool_decide (a = k)
  | _ => false
  end.

(** A call of the webhook sender whose payload carries album id [k]. *)
Definition delivers (k : string) (e : effect) : bool :=
  match e with
  | SendEventWithWebHook _ postmap _ =>
      match postmap !! "albumId" with
      | Some (PStr a) => bool_decide (a = k)
      | _ => false
      end
  | _ => false
  end.

(** The group under [k] ends: it is flushed or cancelled. *)
Definition removes (k : string) (e : effect) : bool :=
  flushes k e || cancels k e.

Definition about (k : string) (e : effect) : bool :=
  removes k e || delivers k e.

(** Every album is stored under its own id. *)
Definition wf (w : World) : Prop :=
  ∀ k a, albums w !! k = Some a → AlbumID a = k.

(** The fields an album takes from the call that creates it and keeps. *)
Definition same_group (a a' : AlbumData) : Prop :=
  AlbumID a' = AlbumID a ∧ ChatJID a' = ChatJID a ∧
  SenderJID a' = SenderJID a ∧ SenderAlt a' = SenderAlt a ∧
  Timestamp a' = Timestamp a ∧ UserID a' = UserID a ∧
  Token a' = Token a ∧ MyCli a' = MyCli a.

(** The messages and the captions that a run supplies for key [k]. *)
Fixpoint messages_for (k : string) (ops : list op) : list AlbumMessage :=
  match ops with
  | [] => []
  | OpAdd k' msg _ :: ops =>
      if decide (k' = k) then msg :: messages_for k ops else messages_for k ops
  | _ :: ops => messages_for k ops
  end.

Fixpoint captions_for (k : string) (ops : list op) : list string :=
  match ops with
  | [] => []
  | OpAdd k' _ metadata :: ops =>
      if decide (k' = k)
      then from_option Caption "" metadata :: captions_for k ops
      else captions_for k ops
  | _ :: ops => captions_for k ops
  end.

Fixpoint first_nonempty (l : list string) : string :=
  match l with
  | [] => ""
  | c :: l => if nonempty c then c else first_nonempty l
  end.

Definition adds_to (k : string) (o : op) : bool :=
  match o with
  | OpAdd k' _ _ => bool_decide (k' = k)
  | _ => false
  end.

(** ** Observations on schedules *)

Definition ev_adds (k : string) (e : event) : bool :=
  match e with
  | EvAdd k' _ _ _ => bool_decide (k' = k)
  | _ => false
  end.

Definition ev_cancels (k : string) (e : event) : bool :=
  match e with
  | EvCancel k' => bool_decide (k' = k)
  | _ => false
  end.

Definition ev_with_metadata (e : event) : bool :=
  match e with
  | EvAdd _ _ None _ => false
  | _ => true
  end.

(** Time does not run backwards, and a call does not complete before its
    timer operation. *)
Definition ev_forward (e : event) : Prop :=
  match e with
  | EvAdd _ _ _ took => 0 ≤ took
  | EvTick dt => 0 ≤ dt
  | _ => True
  end.

(** The messages a schedule supplies for key [k], in call order. *)
Fixpoint added (k : string) (evs : list event) : list AlbumMessage :=
  match evs with
  | [] => []
  | EvAdd k' msg _ _ :: evs =>
      if decide (k' = k) then msg :: added k evs else added k evs
  | _ :: evs => added k evs
  end.

(** The time a schedule takes. *)
Fixpoint duration (evs : list event) : Z :=
  match evs with
  | [] => 0
  | EvAdd _ _ _ took :: evs => took + duration evs
  | EvTick dt :: evs => dt + duration evs
  | _ :: evs => duration evs
  end.

(** From time [now] on, with the last timer operation for [k] at [last]:
    every call of [AddMessage] for [k] performs its timer operation less
    than [d] after the one before it. *)
Fixpoint spaced (k : string) (d : Z) (evs : list event) (now last : Z) : bool :=
  match evs with
  | [] => true
  | EvAdd k' _ _ took :: evs =>
      if decide (k' = k)
      then (now - last <? d) && spaced k d evs (now + took) now
      else spaced k d evs (now + took) last
  | EvTick dt :: evs => spaced k d evs (now + dt) last
  | _ :: evs => spaced k d evs now last
  end.

(** The time of the last timer operation for [k]. *)
Fixpoint last_add (k : string) (evs : list event) (now last : Z) : Z :=
  match evs with
  | [] => last
  | EvAdd k' _ _ took :: evs =>
      if decide (k' = k)
      then last_add k evs (now + took) now
      else last_add k evs (now + took) last
  | EvTick dt :: evs => last_add k evs (now + dt) last
  | _ :: evs => last_add k evs now last
  end.

(** Each time in the list is less than [d] after the one before it. *)
Fixpoint gaps_below (d : Z) (times : list Z) : bool :=
  match times with
  | x :: (y :: _) as rest => (y - x <? d) && gaps_below d rest
  | _ => true
  end.

(** The album without its timer. *)
Definition strip (a : AlbumData) : AlbumData := set_Timer None a.

Section Effects.

Variable Format_RFC3339 : Time → string.

(** What a flush of album [a], stored under [k], adds to the trace. *)
Definition flush_effects (k : string) (a : AlbumData) : list effect :=
  LogFlushing k (len (Messages a)) (ChatJID a) ::
  match MyCli a with
  | Some cli =>
      [SendEventWithWebHook cli
         (build_postmap (build_payload Format_RFC3339 a)) ""]
  | None => []
  end.

(** Where the group of key [k] stands, [last] being the time of the last
    timer operation for it and [c] the album gathered so far: still
    waiting for its timer; its timer expired and the callback started, not
    yet run; or flushed. *)
Definition group_waiting (k : string) (d last : Z) (c : AlbumData)
    (w0 w : World) : Prop :=
  ∃ a, albums w !! k = Some a ∧ strip a = c ∧
       Timer a = Some (AfterFunc d last) ∧ clock w < deadline d last ∧
       (k ∉ started w) ∧ filter (about k) (since w0 w) = [].

Definition group_expired (k : string) (d last : Z) (c : AlbumData)
    (w0 w : World) : Prop :=
  ∃ a, albums w !! k = Some a ∧ strip a = c ∧
       Timer a = Some (ran (AfterFunc d last)) ∧ deadline d last ≤ clock w ∧
       filter (λ x, x = k) (started w) = [k] ∧
       filter (about k) (since w0 w) = [].

Definition group_flushed (k : string) (d last : Z) (c : AlbumData)
    (w0 w : World) : Prop :=
  albums w !! k = None ∧ deadline d last ≤ clock w ∧ (k ∉ started w) ∧
  filter (about k) (since w0 w) = flush_effects k c.

Definition group_state (k : string) (d last : Z) (c : AlbumData)
    (w0 w : World) : Prop :=
  group_waiting k d last c w0 w ∨ group_expired k d last c w0 w ∨
  group_flushed k d last c w0 w.

End Effects.

(** ** Sample data *)

Definition m1 : AlbumMessage :=
  {| ID := "m1"; URL := "https://s3.example.com/image1.jpg"; Base64 := "";
     MimeType := "image/jpeg"; FileName := "m1.jpg"; S3 := None |}.

Definition m2 : AlbumMessage :=
  {| ID := "m2"; URL := "https://s3.example.com/image2.jpg"; Base64 := "";
     MimeType := "image/jpeg"; FileName := "m2.jpg"; S3 := None |}.

Definition seed (caption : string) (cli : option MyClient) : AlbumData :=
  {| AlbumID := ""; ChatJID := "120363213309213777@g.us";
     SenderJID := "8353895989430@lid";
     SenderAlt := "62817147127@s.whatsapp.net";
     Caption := caption;
     Timestamp := {| unix_nano := 1770194577000000000; zone_offset := 25200 |};
     Messages := []; Timer := None; UserID := "1"; Token := "token";
     MyCli := cli |}.

(** A formatter to run the examples with; the properties hold for any. *)
Definition sample_format (t : Time) : string := "2026-02-04T15:42:57+07:00".

Definition cli1 : MyClient := MyClientAt 1.

Definition seed_hi : AlbumData := seed "hi" (Some cli1).

Definition seed_blank : AlbumData := seed "" (Some cli1).

(** A buffer just initialized, with the default wait of 5 seconds. *)
Definition fresh : World := InitAlbumBuffer 5 true 0.

(** The state and the results a run ends with ([w] itself after a panic). *)
Definition run_world (ops : list op) (w : World) : World :=
  match run sample_format ops w with
  | Ok (_, w') => w'
  | Panic => w
  end.

Definition run_flags (ops : list op) (w : World) : list (string * bool) :=
  match run sample_format ops w with
  | Ok (flags, _) => flags
  | Panic => []
  end.

(** The buffer after the first message of album "ALBUM1". *)
Definition opened : World :=
  run_world [OpAdd "ALBUM1" m1 (Some seed_hi)] fresh.

(** The same, for a session whose client pointer is nil. *)
Definition opened_nil_client : World :=
  run_world [OpAdd "ALBUM1" m1 (Some (seed "hi" None))] fresh.

(** The album open under [k], if any. *)
Definition album_at (k : string) (w : World) : AlbumData :=
  default (seed "" None) (albums w !! k).

(** One second later: a second message for "ALBUM1", a message for another
    album, and a cancellation of that other album. *)
Definition more_calls : list op :=
  [OpElapse 1000000000; OpAdd "ALBUM1" m2 (Some seed_blank);
   OpAdd "ALBUM2" m2 (Some seed_blank); OpCancel "ALBUM2"].

Definition m3 : AlbumMessage :=
  {| ID := "m3"; URL := "https://s3.example.com/image3.jpg"; Base64 := "";
     MimeType := "image/jpeg"; FileName := "m3.jpg"; S3 := None |}.

(** Three calls for one album, each completing less than the 5 seconds of
    the wait after the one before.  The first arms the timer at time 0 and
    completes a millisecond later; the second performs its timer operation
    half a millisecond after the timer has expired, while the callback has
    not run yet; the callback runs right after it; the third comes a second
    later. *)
Definition race : list event :=
  [EvAdd "ALBUM1" m1 (Some seed_hi) 1000000;
   EvTick 4999500000;
   EvAdd "ALBUM1" m2 (Some seed_blank) 0;
   EvCallback "ALBUM1";
   EvTick 1000000000;
   EvAdd "ALBUM1" m3 (Some seed_blank) 0;
   EvTick 5000000000;
   EvCallback "ALBUM1"].

(** The state a schedule ends with ([w] itself after a panic). *)
Definition play_world (evs : list event) (w : World) : World :=
  match play sample_format evs w with
  | Ok (_, w') => w'
  | Panic => w
  end.

(** A buffer in which another album has been open for four seconds. *)
Definition busy : World :=
  play_world [EvAdd "ALBUM2" m3 (Some seed_blank) 0; EvTick 4000000000] fresh.

(** What follows a first call for "ALBUM1" in [busy]: the other album's
    timer expires, the album is cancelled before its callback runs, and a
    second call for "ALBUM1" comes four and a half seconds after the
    first. *)
Definition in_window : list event :=
  [EvTick 1500000000;
   EvCancel "ALBUM2";
   EvCallback "ALBUM2";
   EvTick 3000000000;
   EvAdd "ALBUM1" m3 (Some seed_blank) 0].

(** Two albums whose messages arrive interleaved, then the window passes. *)
Definition interleaved : list op :=
  [OpAdd "ALBUM1" m1 (Some seed_hi); OpAdd "ALBUM2" m2 (Some seed_blank);
   OpElapse 1000000000; OpAdd "ALBUM1" m2 (Some seed_blank);
   OpAdd "ALBUM2" m1 (Some seed_blank); OpElapse 5000000000].

(** ** Further observations *)

(** The store's invariant: every open album is stored under its own id,
    holds at least one message, and has an armed timer that is due no later
    than one debounce duration from now. *)
Definition open_ok (w : World) : Prop :=
  ∀ k a, albums w !! k = Some a →
    AlbumID a = k ∧ Messages a ≠ [] ∧
    ∃ t, Timer a = Some t ∧ active t = true ∧
         when t ≤ clock w + Z.max 0 (debounce w).

(** The images a call of the webhook sender carries. *)
Definition images_of (e : effect) : list AlbumMessage :=
  match e with
  | SendEventWithWebHook _ postmap _ =>
      match postmap !! "images" with
      | Some (PImages l) => l
      | _ => []
      end
  | _ => []
  end.

(** All images delivered for album id [k], in the order of delivery. *)
Definition delivered_images (k : string) (tr : list effect)
    : list AlbumMessage :=
  flat_map images_of (filter (delivers k) tr).




(** A call of [AddMessage] comes with metadata. *)
Definition with_metadata (o : op) : bool :=
  match o with
  | OpAdd _ _ None => false
  | _ => true
  end.

(** The keys of the calls of [AddMessage] in a run, in call order. *)
Fixpoint add_keys (ops : list op) : list string :=
  match ops with
  | [] => []
  | OpAdd k _ _ :: ops => k :: add_keys ops
  | _ :: ops => add_keys ops
  end.

(** Time does not run backwards. *)
Definition forward (o : op) : Prop :=
  match o with
  | OpElapse dt => 0 ≤ dt
  | _ => True
  end.

(** What every call of the webhook sender looks like. *)
Definition payload_ok (e : effect) : Prop :=
  match e with
  | SendEventWithWebHook _ postmap path =>
      path = "" ∧
      postmap !! "type" = Some (PStr "MessageAlbum") ∧
      ∃ imgs,
        imgs ≠ [] ∧ postmap !! "images" = Some (PImages imgs) ∧
        postmap !! "totalImages" = Some (PInt (len imgs))
  | _ => True
  end.

(** ** Basic facts *)

Lemma nonempty_true s : nonempty s = true ↔ s ≠ "".
Proof. destruct s; simpl; split; intros; congruence. Qed.

Lemma nonempty_false s : nonempty s = false ↔ s = "".
Proof. destruct s; simpl; split; intros; congruence. Qed.

Lemma since_app w w' new : trace w' = trace w ++ new → since w w' = new.
Proof. intros H. unfold since. rewrite H. apply drop_app_length. Qed.

Lemma since_refl w : since w w = [].
Proof. apply since_app. by rewrite app_nil_r. Qed.

Lemma same_group_refl a : same_group a a.
Proof. by repeat split. Qed.

Lemma same_group_trans a b c : same_group a b → same_group b c → same_group a c.
Proof. unfold same_group. intuition congruence. Qed.

(** ** The key extractor *)

Lemma index_map_inv (m : gomap) k g :
  index m k = VMap (Some g) → ∃ g0, m = Some g0 ∧ g0 !! k = Some (VMap (Some g)).
Proof.
  destruct m as [g0|]; simpl; [|discriminate].
  destruct (g0 !! k) as [v|] eqn:E; simpl; [|discriminate].
  intros ->. eauto.
Qed.

Lemma index_str_inv (m : gomap) k s :
  index m k = VStr s → ∃ g0, m = Some g0 ∧ g0 !! k = Some (VStr s).
Proof.
  destruct m as [g0|]; simpl; [|discriminate].
  destruct (g0 !! k) as [v|] eqn:E; simpl; [|discriminate].
  intros ->. eauto.
Qed.

Lemma HasParentMessageKey_found ctx id :
  parent_key_at ctx id → HasParentMessageKey ctx = (id, true).
Proof.
  intros (m & assoc & parent & -> & Ha & Hp & Hi & Hne).
  unfold HasParentMessageKey, index. rewrite Ha. simpl.
  rewrite Hp. simpl. rewrite Hi. simpl.
  apply nonempty_true in Hne. by rewrite Hne.
Qed.

Lemma HasParentMessageKey_cases ctx :
  (∃ id, parent_key_at ctx id ∧ HasParentMessageKey ctx = (id, true)) ∨
  HasParentMessageKey ctx = ("", false).
Proof.
  unfold HasParentMessageKey.
  destruct ctx as [m|]; [|by right].
  destruct (index (Some m) "messageAssociation") as [| | | | |assoc] eqn:Ha;
    simpl; try by right.
  destruct (index assoc "parentMessageKey") as [| | | | |parent] eqn:Hp;
    simpl; try by right.
  destruct (index parent "ID") as [| | |id| |] eqn:Hi; simpl; try by right.
  destruct (nonempty id) eqn:Hne; [|by right].
  left. exists id. split; [|done].
  apply index_str_inv in Hi as (p0 & -> & Hi).
  apply index_map_inv in Hp as (a0 & -> & Hp).
  apply index_map_inv in Ha as (c0 & Hc & Ha). injection Hc as <-.
  exists m, a0, p0. repeat split; try done. by apply nonempty_true.
Qed.

(** C8: [HasParentMessageKey] returns [(id, true)] exactly when the envelope
    is a non-nil map holding a non-empty string [id] at
    [messageAssociation.parentMessageKey.ID] through maps, and [("", false)]
    in every other case.  It is a function of its argument alone: it
    returns a pair and has no state to change. *)
Theorem HasParentMessageKey_spec (ctx : gomap) :
  (∀ id, HasParentMessageKey ctx = (id, true) ↔ parent_key_at ctx id) ∧
  ((∀ id, ¬ parent_key_at ctx id) ↔ HasParentMessageKey ctx = ("", false)).
Proof.
  split.
  - intros id. split; [|apply HasParentMessageKey_found].
    intros H. destruct (HasParentMessageKey_cases ctx) as [(id' & Hp & E)|E].
    + rewrite E in H. by injection H as ->.
    + rewrite E in H. discriminate.
  - split.
    + intros Hno. destruct (HasParentMessageKey_cases ctx) as [(id' & Hp & _)|E].
      * by destruct (Hno id').
      * done.
    + intros E id Hp. apply HasParentMessageKey_found in Hp.
      rewrite E in Hp. discriminate.
Qed.

Example HasParentMessageKey_album :
  HasParentMessageKey
    (Some {[ "messageAssociation" :=
               VMap (Some {[ "parentMessageKey" :=
                               VMap (Some {[ "ID" := VStr "ALBUM1" ]}) ]}) ]})
  = ("ALBUM1", true).
Proof. reflexivity. Qed.

Example HasParentMessageKey_wrong_shape :
  HasParentMessageKey
    (Some {[ "messageAssociation" :=
               VMap (Some {[ "parentMessageKey" := VStr "ALBUM1" ]}) ]})
  = ("", false).
Proof. reflexivity. Qed.

Example HasParentMessageKey_empty_id :
  HasParentMessageKey
    (Some {[ "messageAssociation" :=
               VMap (Some {[ "parentMessageKey" :=
                               VMap (Some {[ "ID" := VStr "" ]}) ]}) ]})
  = ("", false).
Proof. reflexivity. Qed.

Example HasParentMessageKey_nil : HasParentMessageKey None = ("", false).
Proof. reflexivity. Qed.

(** ** One call of [AddMessage] *)

Lemma AddMessage_new k msg md w :
  albums w !! k = None →
  ∃ a w',
    AddMessage k msg (Some md) w = Ok (true, w') ∧
    albums w' = <[k := a]> (albums w) ∧
    waitSeconds w' = waitSeconds w ∧ clock w' = clock w ∧
    trace w' = trace w ++ [LogNewAlbum k (ChatJID md) (waitSeconds w);
                           LogMessageAdded k (ID msg) 1] ∧
    AlbumID a = k ∧ ChatJID a = ChatJID md ∧ SenderJID a = SenderJID md ∧
    SenderAlt a = SenderAlt md ∧ Caption a = Caption md ∧
    Timestamp a = Timestamp md ∧ UserID a = UserID md ∧ Token a = Token md ∧
    MyCli a = MyCli md ∧ Messages a = [msg] ∧
    Timer a = Some (AfterFunc (debounce w) (clock w)).
Proof.
  intros Hk. unfold AddMessage. rewrite Hk. simpl.
  eexists _, _. split; [reflexivity|].
  simpl. rewrite <- app_assoc. simpl. repeat split; reflexivity.
Qed.

Lemma AddMessage_new_inv k msg md w b w' :
  albums w !! k = None →
  AddMessage k msg md w = Ok (b, w') →
  ∃ m, md = Some m ∧ AddMessage k msg (Some m) w = Ok (b, w').
Proof.
  intros Hk H. destruct md as [m|]; [eauto|].
  unfold AddMessage in H. rewrite Hk in H. discriminate.
Qed.

Lemma merge_caption_inv a md a' :
  merge_caption a md = Ok a' →
  same_group a a' ∧ Messages a' = Messages a ∧ Timer a' = Timer a ∧
  Caption a' =
    (if nonempty (Caption a) then Caption a else from_option Caption "" md).
Proof.
  unfold merge_caption. destruct (nonempty (Caption a)) eqn:Ha.
  - intros [= <-]. by repeat split.
  - destruct md as [m|]; [|discriminate]. simpl.
    destruct (nonempty (Caption m)) eqn:Hm; intros [= <-]; simpl;
      rewrite ?Ha; repeat split; try reflexivity.
    apply nonempty_false in Ha, Hm. congruence.
Qed.

Lemma merge_caption_Some a m : ∃ a', merge_caption a (Some m) = Ok a'.
Proof.
  unfold merge_caption.
  destruct (nonempty (Caption a)), (nonempty (Caption m)); eauto.
Qed.

Lemma AddMessage_existing_inv k msg md w a b w' :
  albums w !! k = Some a →
  AddMessage k msg md w = Ok (b, w') →
  ∃ a',
    b = false ∧
    albums w' = <[k := a']> (albums w) ∧
    waitSeconds w' = waitSeconds w ∧ clock w' = clock w ∧
    trace w' = trace w ++ [LogMessageAdded k (ID msg) (len (Messages a'))] ∧
    same_group a a' ∧ Messages a' = Messages a ++ [msg] ∧
    Caption a' =
      (if nonempty (Caption a) then Caption a else from_option Caption "" md) ∧
    Timer a' =
      (match Timer a with
       | Some _ => Some (AfterFunc (debounce w) (clock w))
       | None => None
       end).
Proof.
  intros Hk. unfold AddMessage. rewrite Hk.
  destruct (merge_caption a md) as [a1|] eqn:Hm; [|discriminate].
  simpl. intros [= <- <-].
  apply merge_caption_inv in Hm as (Hg & Hmsg & Htm & Hc).
  exists (set_Messages (Messages a1 ++ [msg])
            (reset_timer (debounce w) (clock w) a1)).
  unfold reset_timer. rewrite Htm.
  destruct (Timer a) as [t|] eqn:Ht; simpl;
    repeat split; try apply Hg; congruence.
Qed.

Lemma AddMessage_Some_total k msg m w :
  ∃ b w', AddMessage k msg (Some m) w = Ok (b, w').
Proof.
  destruct (albums w !! k) as [a|] eqn:Hk.
  - unfold AddMessage. rewrite Hk.
    destruct (merge_caption_Some a m) as [a' ->]. simpl. eauto.
  - destruct (AddMessage_new k msg m w Hk) as (a & w' & H & _). eauto.
Qed.

(** A call of [AddMessage] leaves the runtime as it is: it leaves no timer
    behind, and starts and recalls no callback. *)
Lemma AddMessage_runtime k msg md w b w' :
  AddMessage k msg md w = Ok (b, w') →
  orphans w' = orphans w ∧ started w' = started w ∧ enabled w' = enabled w.
Proof.
  unfold AddMessage. destruct (albums w !! k) as [a0|].
  - destruct (merge_caption a0 md); [|discriminate]. simpl.
    by intros [= <- <-].
  - destruct md as [m|]; [|discriminate]. simpl. by intros [= <- <-].
Qed.

(** What any returning call of [AddMessage] does to the store and the
    trace. *)
Lemma AddMessage_inv k msg md w b w' :
  AddMessage k msg md w = Ok (b, w') →
  ∃ a' new,
    albums w' = <[k := a']> (albums w) ∧ AlbumID a' = from_option AlbumID k (albums w !! k) ∧
    waitSeconds w' = waitSeconds w ∧ clock w' = clock w ∧
    trace w' = trace w ++ new ∧ Forall (λ e, ∀ k0, about k0 e = false) new.
Proof.
  intros H. destruct (albums w !! k) as [a|] eqn:Hk.
  - destruct (AddMessage_existing_inv _ _ _ _ _ _ _ Hk H)
      as (a' & _ & Hal & Hws & Hcl & Htr & Hg & _).
    exists a', [LogMessageAdded k (ID msg) (len (Messages a'))].
    repeat split; try done. { apply Hg. }
    by repeat constructor.
  - destruct (AddMessage_new_inv _ _ _ _ _ _ Hk H) as (m & -> & _).
    destruct (AddMessage_new k msg m w Hk)
      as (a' & w1 & H1 & Hal & Hws & Hcl & Htr & Hid & _).
    rewrite H1 in H. injection H as <- <-.
    exists a', [LogNewAlbum k (ChatJID m) (waitSeconds w);
                LogMessageAdded k (ID msg) 1].
    repeat split; try done. by repeat constructor.
Qed.

(** ** Filtering traces *)

Lemma about_false k e :
  about k e = false →
  flushes k e = false ∧ cancels k e = false ∧ delivers k e = false ∧
  removes k e = false.
Proof.
  unfold about, removes.
  destruct (flushes k e), (cancels k e), (delivers k e); simpl; auto.
Qed.

Lemma filter_nil_Forall {A} (P : A → bool) (l : list A) :
  filter P l = [] ↔ Forall (λ e, P e = false) l.
Proof.
  induction l as [|e l IH]; [by split; [constructor|]|].
  rewrite filter_cons, Forall_cons. destruct (decide (P e)) as [Hp|Hp].
  - apply Is_true_true in Hp. split; [discriminate|]. intros [? _]. congruence.
  - apply Is_true_false in Hp. rewrite IH. tauto.
Qed.

Lemma filter_sub {A} (P Q : A → bool) (l : list A) :
  (∀ e, P e = true → Q e = true) → filter P l = filter P (filter Q l).
Proof.
  intros HPQ. induction l as [|e l IH]; [done|].
  rewrite (filter_cons Q). destruct (decide (Q e)) as [Hq|Hq].
  - rewrite !filter_cons. destruct (decide (P e)); by rewrite IH.
  - rewrite filter_cons. rewrite decide_False; [done|].
    intros HP. apply Hq. apply Is_true_true in HP. apply Is_true_true. auto.
Qed.

Lemma filter_flushes_about k (l : list effect) :
  filter (flushes k) l = filter (flushes k) (filter (about k) l).
Proof.
  apply filter_sub. intros e H. unfold about, removes. by rewrite H.
Qed.

Lemma filter_delivers_about k (l : list effect) :
  filter (delivers k) l = filter (delivers k) (filter (about k) l).
Proof.
  apply filter_sub. intros e H. unfold about. rewrite H. apply orb_true_r.
Qed.

Lemma filter_removes_about k (l : list effect) :
  filter (removes k) l = filter (removes k) (filter (about k) l).
Proof.
  apply filter_sub. intros e H. unfold about. by rewrite H.
Qed.

Lemma filter_removes_nil_app k (l1 l2 : list effect) :
  filter (removes k) (l1 ++ l2) = [] ↔
  filter (removes k) l1 = [] ∧ filter (removes k) l2 = [].
Proof.
  rewrite filter_app. split.
  - intros H. by apply app_eq_nil in H.
  - intros [-> ->]. done.
Qed.

Lemma quiet_all_filter k (new : list effect) :
  Forall (λ e, ∀ k0, about k0 e = false) new → filter (about k) new = [].
Proof.
  intros H. apply filter_nil_Forall. eapply Forall_impl; [exact H|].
  intros e He. apply He.
Qed.

Section FlushFacts.

Variable Format_RFC3339 : Time → string.

Abbreviation flushAlbum := (flushAlbum Format_RFC3339).
Abbreviation elapse := (elapse Format_RFC3339).
Abbreviation callback := (callback Format_RFC3339).
Abbreviation step := (step Format_RFC3339).
Abbreviation play := (play Format_RFC3339).
Abbreviation exec := (exec Format_RFC3339).
Abbreviation run := (run Format_RFC3339).
Abbreviation flush_effects := (flush_effects Format_RFC3339).
Abbreviation build_payload := (build_payload Format_RFC3339).

(** ** The payload *)

Lemma postmap_albumId a :
  build_postmap (build_payload a) !! "albumId" = Some (PStr (AlbumID a)).
Proof. reflexivity. Qed.

Lemma flush_effects_other k k' a :
  AlbumID a = k' → k' ≠ k → filter (about k) (flush_effects k' a) = [].
Proof.
  intros Hid Hne. unfold flush_effects.
  rewrite filter_cons. rewrite decide_False.
  2:{ unfold about, removes. simpl. rewrite bool_decide_eq_false_2 by done.
      simpl. tauto. }
  destruct (MyCli a) as [cli|]; [|done].
  rewrite filter_cons. rewrite decide_False; [done|].
  unfold about, removes. simpl. rewrite postmap_albumId.
  rewrite bool_decide_eq_false_2 by congruence. simpl. tauto.
Qed.

Lemma flush_effects_own k a :
  AlbumID a = k → filter (about k) (flush_effects k a) = flush_effects k a.
Proof.
  intros Hid. unfold flush_effects.
  rewrite filter_cons. rewrite decide_True.
  2:{ unfold about, removes. simpl. by rewrite bool_decide_eq_true_2. }
  f_equal. destruct (MyCli a) as [cli|]; [|done].
  rewrite filter_cons. rewrite decide_True; [done|].
  unfold about, removes. simpl. rewrite postmap_albumId.
  by rewrite bool_decide_eq_true_2.
Qed.

Lemma flush_effects_flushes k a :
  filter (flushes k) (flush_effects k a) =
  [LogFlushing k (len (Messages a)) (ChatJID a)].
Proof.
  unfold flush_effects. rewrite filter_cons. rewrite decide_True.
  2:{ simpl. by rewrite bool_decide_eq_true_2. }
  f_equal. by destruct (MyCli a).
Qed.

Lemma flush_effects_delivers k a :
  AlbumID a = k →
  filter (delivers k) (flush_effects k a) =
  match MyCli a with
  | Some cli =>
      [SendEventWithWebHook cli (build_postmap (build_payload a)) ""]
  | None => []
  end.
Proof.
  intros Hid. unfold flush_effects. rewrite filter_cons.
  rewrite decide_False by (simpl; tauto).
  destruct (MyCli a) as [cli|]; [|done].
  rewrite filter_cons. rewrite decide_True; [done|].
  simpl. rewrite postmap_albumId. by rewrite bool_decide_eq_true_2.
Qed.

(** ** One flush, one cancellation *)

Lemma flushAlbum_absent k w : albums w !! k = None → flushAlbum k w = w.
Proof. intros H. unfold flushAlbum. by rewrite H. Qed.

(** A stopped timer is not left behind: removing the album after
    [stop_timer] leaves nothing armed. *)
Lemma remove_stopped k a w :
  remove_album k (stop_timer a) w = set_albums (delete k (albums w)) w.
Proof. unfold remove_album, stop_timer. by destruct (Timer a) eqn:E; simpl; rewrite ?E. Qed.

Lemma flush_effects_Timer k t a :
  flush_effects k (set_Timer t a) = flush_effects k a.
Proof. reflexivity. Qed.

Lemma flush_effects_stop k a : flush_effects k (stop_timer a) = flush_effects k a.
Proof. unfold stop_timer. by destruct (Timer a). Qed.

Lemma dispatch_spec k a w :
  albums (dispatch Format_RFC3339 k a w) = albums w ∧
  waitSeconds (dispatch Format_RFC3339 k a w) = waitSeconds w ∧
  enabled (dispatch Format_RFC3339 k a w) = enabled w ∧
  clock (dispatch Format_RFC3339 k a w) = clock w ∧
  orphans (dispatch Format_RFC3339 k a w) = orphans w ∧
  started (dispatch Format_RFC3339 k a w) = started w ∧
  trace (dispatch Format_RFC3339 k a w) = trace w ++ flush_effects k a.
Proof.
  unfold dispatch, flush_effects. destruct (MyCli a); simpl; repeat split.
  by rewrite <- app_assoc.
Qed.

Lemma flushAlbum_present k w a :
  albums w !! k = Some a →
  albums (flushAlbum k w) = delete k (albums w) ∧
  waitSeconds (flushAlbum k w) = waitSeconds w ∧
  clock (flushAlbum k w) = clock w ∧
  trace (flushAlbum k w) = trace w ++ flush_effects k a.
Proof.
  intros H. unfold flushAlbum. rewrite H. cbn zeta.
  rewrite remove_stopped.
  destruct (dispatch_spec k (stop_timer a) (set_albums (delete k (albums w)) w))
    as (-> & -> & _ & -> & _ & _ & ->).
  by rewrite flush_effects_stop.
Qed.

(** A flush leaves the runtime as it is: no timer is left armed behind, and
    no callback is started or recalled. *)
Lemma flushAlbum_runtime k w :
  orphans (flushAlbum k w) = orphans w ∧ started (flushAlbum k w) = started w ∧
  enabled (flushAlbum k w) = enabled w.
Proof.
  unfold flushAlbum. destruct (albums w !! k) as [a|]; [|done]. cbn zeta.
  rewrite remove_stopped.
  by destruct (dispatch_spec k (stop_timer a) (set_albums (delete k (albums w)) w))
    as (_ & _ & -> & _ & -> & -> & _).
Qed.

Lemma CancelAlbum_absent k w : albums w !! k = None → CancelAlbum k w = w.
Proof. intros H. unfold CancelAlbum. by rewrite H. Qed.

Lemma CancelAlbum_present k w a :
  albums w !! k = Some a →
  albums (CancelAlbum k w) = delete k (albums w) ∧
  waitSeconds (CancelAlbum k w) = waitSeconds w ∧
  clock (CancelAlbum k w) = clock w ∧
  trace (CancelAlbum k w) = trace w ++ [LogCancelled k].
Proof.
  intros H. unfold CancelAlbum. rewrite H. cbn zeta. rewrite remove_stopped.
  by repeat split.
Qed.

(** A cancellation leaves the runtime as it is: the album's timer is
    stopped, so none is left armed behind. *)
Lemma CancelAlbum_runtime k w :
  orphans (CancelAlbum k w) = orphans w ∧ started (CancelAlbum k w) = started w ∧
  enabled (CancelAlbum k w) = enabled w.
Proof.
  unfold CancelAlbum. destruct (albums w !! k) as [a|]; [|done]. cbn zeta.
  by rewrite remove_stopped.
Qed.

(** ** Albums stay under their own id *)

Lemma wf_insert k a w w' :
  wf w → AlbumID a = k → albums w' = <[k := a]> (albums w) → wf w'.
Proof.
  intros Hwf Hid Hal k' a' H. rewrite Hal in H.
  destruct (decide (k = k')) as [->|Hne].
  - rewrite lookup_insert_eq in H. congruence.
  - rewrite lookup_insert_ne in H by done. by apply Hwf.
Qed.

Lemma wf_delete k w w' : wf w → albums w' = delete k (albums w) → wf w'.
Proof.
  intros Hwf Hal k' a' H. rewrite Hal in H.
  apply lookup_delete_Some in H as [_ H]. by apply Hwf.
Qed.

Lemma wf_AddMessage k msg md w b w' :
  wf w → AddMessage k msg md w = Ok (b, w') → wf w'.
Proof.
  intros Hwf H.
  destruct (AddMessage_inv _ _ _ _ _ _ H) as (a' & new & Hal & Hid & _).
  apply (wf_insert k a' w); [done| |done].
  rewrite Hid. destruct (albums w !! k) as [a|] eqn:E; simpl; [|done].
  by apply Hwf.
Qed.

Lemma wf_flushAlbum k w : wf w → wf (flushAlbum k w).
Proof.
  intros Hwf. destruct (albums w !! k) as [a|] eqn:E.
  - destruct (flushAlbum_present k w a E) as (Hal & _).
    by apply (wf_delete k w).
  - by rewrite flushAlbum_absent.
Qed.

Lemma wf_CancelAlbum k w : wf w → wf (CancelAlbum k w).
Proof.
  intros Hwf. destruct (albums w !! k) as [a|] eqn:E.
  - destruct (CancelAlbum_present k w a E) as (Hal & _).
    by apply (wf_delete k w).
  - by rewrite CancelAlbum_absent.
Qed.

Lemma wf_Init ws en now : wf (InitAlbumBuffer ws en now).
Proof. intros k a H. simpl in H. by rewrite lookup_empty in H. Qed.

(** ** Timers that are due *)

Lemma attached_elem (w : World) k t :
  (k, t) ∈ omap (λ ka : string * AlbumData, (λ t, (ka.1, t)) <$> Timer ka.2)
             (map_to_list (albums w))
  ↔ ∃ a, albums w !! k = Some a ∧ Timer a = Some t.
Proof.
  rewrite list_elem_of_omap. split.
  - intros ([k' a] & Hin & Heq). apply elem_of_map_to_list in Hin.
    simpl in Heq. destruct (Timer a) as [t'|] eqn:E; simpl in Heq; [|done].
    injection Heq as -> ->. eauto.
  - intros (a & H & Ht). exists (k, a). split.
    + by apply elem_of_map_to_list.
    + simpl. by rewrite Ht.
Qed.

(** A callback for [k] is started by the album's own timer, or by a timer
    that an album removed from the map has left behind. *)
Lemma due_keys_elem now w k :
  k ∈ due_keys now w ↔
  (∃ a, albums w !! k = Some a ∧ due now a = true) ∨
  (∃ t, (k, t) ∈ orphans w ∧ expired now t = true).
Proof.
  unfold due_keys. rewrite merge_sort_Permutation.
  rewrite list_elem_of_fmap. split.
  - intros ([k' t] & -> & [He Hin]%list_elem_of_filter). simpl in *.
    unfold timers in Hin. apply elem_of_app in Hin as [Hin|Hin].
    + left. apply attached_elem in Hin as (a & Ha & Ht). exists a.
      split; [done|]. unfold due. by rewrite Ht.
    + right. eauto.
  - intros [(a & Ha & Hd)|(t & Hin & He)].
    + unfold due in Hd. destruct (Timer a) as [t|] eqn:Ht; [|done].
      exists (k, t). split; [done|]. apply list_elem_of_filter. split; [done|].
      unfold timers. apply elem_of_app. left. apply attached_elem. eauto.
    + exists (k, t). split; [done|]. apply list_elem_of_filter. split; [done|].
      unfold timers. apply elem_of_app. by right.
Qed.

Lemma due_keys_due now w k a :
  albums w !! k = Some a → due now a = true → k ∈ due_keys now w.
Proof. intros. apply due_keys_elem. left. eauto. Qed.

Lemma due_keys_not_due now w k :
  orphans w = [] →
  (∀ a, albums w !! k = Some a → due now a = false) →
  k ∉ due_keys now w.
Proof.
  intros Ho Hnd [(a & Ha & Hd)|(t & Hin & _)]%due_keys_elem.
  - rewrite (Hnd a Ha) in Hd. done.
  - rewrite Ho in Hin. by apply not_elem_of_nil in Hin.
Qed.

Lemma omap_keys_NoDup (l : list (string * AlbumData))
    (P : string * time_Timer → Prop) `{!∀ x, Decision (P x)} :
  NoDup l.*1 →
  NoDup (filter P
           (omap (λ ka : string * AlbumData, (λ t, (ka.1, t)) <$> Timer ka.2)
              l)).*1.
Proof.
  assert (Hsub : ∀ (l : list (string * AlbumData)) x,
            x ∈ (filter P
                   (omap (λ ka : string * AlbumData,
                            (λ t, (ka.1, t)) <$> Timer ka.2) l)).*1 →
            x ∈ l.*1).
  { intros l0 x ([k t] & -> & [_ Hin]%list_elem_of_filter)%list_elem_of_fmap.
    apply list_elem_of_omap in Hin as ([k' a] & Hin & Heq). simpl in Heq.
    destruct (Timer a); simpl in Heq; [|done]. injection Heq as -> ->.
    apply list_elem_of_fmap. by exists (k, a). }
  induction l as [|[k a] l IH]; intros Hnd; [constructor|].
  simpl in Hnd. apply NoDup_cons in Hnd as [Hk Hnd]. simpl.
  destruct (Timer a) as [t|]; simpl; [|by apply IH].
  rewrite filter_cons. destruct (decide (P (k, t))); [|by apply IH].
  simpl. apply NoDup_cons. split; [|by apply IH].
  intros Hin. apply Hk. by apply Hsub.
Qed.

(** With no timer left behind, at most one callback is started for a key. *)
Lemma due_keys_NoDup now w : orphans w = [] → NoDup (due_keys now w).
Proof.
  intros Ho. unfold due_keys, timers. rewrite merge_sort_Permutation.
  rewrite Ho, app_nil_r. apply omap_keys_NoDup. apply NoDup_fst_map_to_list.
Qed.

Lemma if_mem_cons_same {A} (k : string) ks (x y : A) :
  (if decide (k ∈ k :: ks) then x else y) = x.
Proof. rewrite decide_True; [done|]. apply list_elem_of_here. Qed.

Lemma if_mem_cons_other {A} (k k' : string) ks (x y : A) :
  k ≠ k' →
  (if decide (k ∈ k' :: ks) then x else y) = (if decide (k ∈ ks) then x else y).
Proof.
  intros Hne. destruct (decide (k ∈ ks)) as [Hin|Hin].
  - rewrite decide_True; [done|]. by apply list_elem_of_further.
  - rewrite decide_False; [done|]. rewrite elem_of_cons. tauto.
Qed.

Lemma filter_eq_NoDup (k : string) (l : list string) :
  NoDup l →
  filter (λ x, x = k) l = if decide (k ∈ l) then [k] else [].
Proof.
  induction l as [|x l IH]; intros Hnd.
  { rewrite decide_False; [done|]. apply not_elem_of_nil. }
  apply NoDup_cons in Hnd as [Hx Hnd]. rewrite filter_cons, (IH Hnd).
  destruct (decide (x = k)) as [->|Hne].
  - rewrite if_mem_cons_same. by rewrite decide_False.
  - by rewrite if_mem_cons_other.
Qed.

(** ** What the clock does to the timers *)

Lemma expire_album_same k now a :
  strip (expire_album now a) = strip a ∧
  flush_effects k (expire_album now a) = flush_effects k a.
Proof. unfold expire_album. by destruct (due now a). Qed.

Lemma expire_lookup k dt w :
  albums (expire dt w) !! k = expire_album (clock w + dt) <$> albums w !! k.
Proof. unfold expire. simpl. by rewrite lookup_fmap. Qed.

Lemma expire_album_not_due now a : due now a = false → expire_album now a = a.
Proof. unfold expire_album. by intros ->. Qed.

Lemma wf_expire dt w : wf w → wf (expire dt w).
Proof.
  intros Hwf k a H. rewrite expire_lookup in H.
  destruct (albums w !! k) as [a0|] eqn:E; [|done]. injection H as <-.
  unfold expire_album. destruct (due (clock w + dt) a0); simpl; by apply Hwf.
Qed.

(** ** Flushing a list of keys *)

Section FlushAll.

Variables (k : string) (P : effect → bool).
Variable inv : gmap string AlbumData → Prop.
Hypothesis inv_delete : ∀ k' m, inv m → inv (delete k' m).
Hypothesis inv_expire : ∀ now m, inv m → inv (expire_album now <$> m).
Hypothesis P_other : ∀ m k' a,
  inv m → m !! k' = Some a → k' ≠ k → filter P (flush_effects k' a) = [].

Lemma inv_flushAlbum k' w : inv (albums w) → inv (albums (flushAlbum k' w)).
Proof.
  intros H. destruct (albums w !! k') as [a|] eqn:E.
  - destruct (flushAlbum_present k' w a E) as (-> & _). by apply inv_delete.
  - by rewrite flushAlbum_absent.
Qed.

Lemma flush_all ks : ∀ w,
  inv (albums w) →
  let w' := foldl (λ w k', flushAlbum k' w) w ks in
  inv (albums w') ∧ waitSeconds w' = waitSeconds w ∧ clock w' = clock w ∧
  albums w' !! k = (if decide (k ∈ ks) then None else albums w !! k) ∧
  ∃ new,
    trace w' = trace w ++ new ∧
    filter P new =
      (if decide (k ∈ ks)
       then from_option (λ a, filter P (flush_effects k a)) [] (albums w !! k)
       else []).
Proof.
  induction ks as [|k' ks IH]; intros w Hwf; cbn zeta; cbn [foldl].
  { rewrite !decide_False by apply not_elem_of_nil.
    repeat split; try done. exists []. by rewrite app_nil_r. }
  destruct (IH (flushAlbum k' w) (inv_flushAlbum k' w Hwf))
    as (Hwf' & Hws & Hcl & Hal & new & Htr & Hnew).
  clear IH.
  destruct (albums w !! k') as [a'|] eqn:E.
  - destruct (flushAlbum_present k' w a' E) as (Hal1 & Hws1 & Hcl1 & Htr1).
    split; [done|]. split; [congruence|]. split; [congruence|]. split.
    + rewrite Hal, Hal1. destruct (decide (k = k')) as [Heq|Hne].
      * subst k'. rewrite lookup_delete_eq, if_mem_cons_same.
        by destruct (decide (k ∈ ks)).
      * by rewrite lookup_delete_ne, if_mem_cons_other.
    + exists (flush_effects k' a' ++ new). split.
      { rewrite Htr, Htr1. by rewrite app_assoc. }
      rewrite filter_app, Hnew, Hal1.
      destruct (decide (k = k')) as [Heq|Hne].
      * subst k'. rewrite if_mem_cons_same, lookup_delete_eq, E. simpl.
        destruct (decide (k ∈ ks)); by rewrite app_nil_r.
      * rewrite lookup_delete_ne by done.
        rewrite (P_other (albums w) k' a'); [|done..]. simpl.
        by rewrite if_mem_cons_other.
  - rewrite flushAlbum_absent in * by done.
    split; [done|]. split; [congruence|]. split; [congruence|]. split.
    + rewrite Hal. destruct (decide (k = k')) as [Heq|Hne].
      * subst k'. rewrite if_mem_cons_same, E.
        by destruct (decide (k ∈ ks)).
      * by rewrite if_mem_cons_other.
    + exists new. split; [done|]. rewrite Hnew.
      destruct (decide (k = k')) as [Heq|Hne].
      * subst k'. rewrite if_mem_cons_same, E. simpl.
        by destruct (decide (k ∈ ks)).
      * by rewrite if_mem_cons_other.
Qed.

(** Time passes: the album under [k] is flushed if a callback for [k] is
    started, and is left alone otherwise. *)
Lemma elapse_gen dt w :
  inv (albums w) →
  let w' := elapse dt w in
  inv (albums w') ∧ waitSeconds w' = waitSeconds w ∧
  clock w' = clock w + dt ∧
  ∃ new,
    trace w' = trace w ++ new ∧
    if decide (k ∈ due_keys (clock w + dt) w)
    then albums w' !! k = None ∧
         filter P new =
           from_option (λ a, filter P (flush_effects k a)) [] (albums w !! k)
    else albums w' !! k = albums w !! k ∧ filter P new = [].
Proof.
  intros Hinv. unfold elapse. cbn zeta.
  destruct (flush_all (due_keys (clock w + dt) w) (expire dt w))
    as (Hinv' & Hws & Hcl & Hal & new & Htr & Hnew).
  { unfold expire. simpl. by apply inv_expire. }
  split; [done|]. split; [done|]. split; [done|].
  exists new. split; [done|].
  rewrite Hal, Hnew, expire_lookup.
  destruct (decide (k ∈ due_keys (clock w + dt) w)) as [Hin|Hin].
  - split; [done|]. destruct (albums w !! k) as [a|]; [|done]. simpl.
    unfold expire_album. by destruct (due (clock w + dt) a).
  - split; [|done]. destruct (albums w !! k) as [a|] eqn:E; [|done]. simpl.
    rewrite expire_album_not_due; [done|].
    destruct (due (clock w + dt) a) eqn:Hd; [|done].
    destruct Hin. by eapply due_keys_due.
Qed.

End FlushAll.

(** The two filters the runs are read with. *)

Lemma elapse_about k dt w :
  wf w →
  let w' := elapse dt w in
  wf w' ∧ waitSeconds w' = waitSeconds w ∧ clock w' = clock w + dt ∧
  ∃ new,
    trace w' = trace w ++ new ∧
    if decide (k ∈ due_keys (clock w + dt) w)
    then albums w' !! k = None ∧
         filter (about k) new = from_option (flush_effects k) [] (albums w !! k)
    else albums w' !! k = albums w !! k ∧ filter (about k) new = [].
Proof.
  intros Hwf.
  destruct (elapse_gen k (about k)
              (λ m, ∀ k a, m !! k = Some a → AlbumID a = k)) with (dt := dt) (w := w)
    as (Hwf' & Hws & Hcl & new & Htr & H).
  - intros k' m Hm k0 a0 [_ H]%lookup_delete_Some. by apply Hm.
  - intros now m Hm k0 a0 H. rewrite lookup_fmap in H.
    destruct (m !! k0) as [a1|] eqn:E; [|done]. injection H as <-.
    unfold expire_album. destruct (due now a1); simpl; by apply Hm.
  - intros m k' a Hm E Hne. apply flush_effects_other; [by apply Hm|done].
  - exact Hwf.
  - split; [exact Hwf'|]. split; [done|]. split; [done|].
    exists new. split; [done|].
    destruct (decide (k ∈ due_keys (clock w + dt) w)); [|done].
    destruct H as [H1 H2]. split; [done|]. rewrite H2.
    destruct (albums w !! k) as [a|] eqn:E; [|done]. simpl.
    apply flush_effects_own. by apply Hwf.
Qed.

Lemma removes_flush_effects_other k k' a :
  k' ≠ k → filter (removes k) (flush_effects k' a) = [].
Proof.
  intros Hne. unfold flush_effects.
  rewrite filter_cons, decide_False.
  2:{ unfold removes. simpl. rewrite bool_decide_eq_false_2 by done.
      simpl. tauto. }
  destruct (MyCli a); [|done].
  rewrite filter_cons, decide_False; [done|]. simpl. tauto.
Qed.

Lemma elapse_removes k dt w :
  let w' := elapse dt w in
  waitSeconds w' = waitSeconds w ∧ clock w' = clock w + dt ∧
  ∃ new,
    trace w' = trace w ++ new ∧
    match albums w !! k with
    | Some a =>
        filter (removes k) new ≠ [] ∨
        albums w' !! k = Some a ∧ filter (removes k) new = []
    | None => albums w' !! k = None ∧ filter (removes k) new = []
    end.
Proof.
  destruct (elapse_gen k (removes k) (λ _, True)) with (dt := dt) (w := w)
    as (_ & Hws & Hcl & new & Htr & H); try done.
  - intros _ k' a _ _ Hne. by apply removes_flush_effects_other.
  - split; [done|]. split; [done|]. exists new. split; [done|].
    destruct (decide (k ∈ due_keys (clock w + dt) w)).
    + destruct H as [H1 H2]. rewrite H2.
      destruct (albums w !! k) as [a|] eqn:E; [|done]. left. simpl.
      unfold flush_effects. rewrite filter_cons, decide_True; [done|].
      unfold removes. simpl. by rewrite bool_decide_eq_true_2.
    + destruct H as [H1 H2]. rewrite H1.
      destruct (albums w !! k) as [a|]; [by right|done].
Qed.

(** ** Runs *)

Lemma first_nonempty_app l1 l2 :
  first_nonempty (l1 ++ l2) = first_nonempty (first_nonempty l1 :: l2).
Proof.
  induction l1 as [|c l1 IH]; simpl; [done|].
  destruct (nonempty c) eqn:E; [by rewrite E|]. exact IH.
Qed.

Lemma first_nonempty_single c : first_nonempty [c] = c.
Proof.
  simpl. destruct (nonempty c) eqn:E; [done|].
  apply nonempty_false in E. by subst.
Qed.

Lemma messages_for_cons k o ops :
  messages_for k (o :: ops) = messages_for k [o] ++ messages_for k ops.
Proof. destruct o; simpl; try done. by destruct (decide (albumID = k)). Qed.

Lemma captions_for_cons k o ops :
  captions_for k (o :: ops) = captions_for k [o] ++ captions_for k ops.
Proof. destruct o; simpl; try done. by destruct (decide (albumID = k)). Qed.

Lemma exec_frame o w fl w1 :
  exec o w = Ok (fl, w1) →
  waitSeconds w1 = waitSeconds w ∧ (wf w → wf w1) ∧
  ∃ new, trace w1 = trace w ++ new.
Proof.
  destruct o as [k msg md|k|dt]; simpl.
  - destruct (AddMessage k msg md w) as [[b w']|] eqn:E; [|discriminate].
    simpl. intros [= <- <-].
    destruct (AddMessage_inv _ _ _ _ _ _ E) as (a' & new & _ & _ & Hws & _ & Htr & _).
    split; [done|]. split; [|by eauto].
    intros Hwf. by eapply wf_AddMessage.
  - intros [= <- <-]. split; [|split; [apply wf_CancelAlbum|]].
    + destruct (albums w !! k) as [a|] eqn:E.
      * by destruct (CancelAlbum_present k w a E) as (_ & -> & _).
      * by rewrite CancelAlbum_absent.
    + destruct (albums w !! k) as [a|] eqn:E.
      * destruct (CancelAlbum_present k w a E) as (_ & _ & _ & ->). eauto.
      * rewrite CancelAlbum_absent by done. exists []. by rewrite app_nil_r.
  - intros [= <- <-].
    destruct (elapse_removes "" dt w) as (Hws & _ & new & Htr & _).
    split; [done|]. split; [|by eauto].
    intros Hwf. by destruct (elapse_about "" dt w Hwf) as (? & _).
Qed.

Lemma run_cons_inv o ops w flags w' :
  run (o :: ops) w = Ok (flags, w') →
  ∃ fl1 w1 fl2,
    exec o w = Ok (fl1, w1) ∧ run ops w1 = Ok (fl2, w') ∧ flags = fl1 ++ fl2.
Proof.
  simpl. destruct (exec o w) as [[fl1 w1]|]; [|discriminate]. simpl.
  destruct (run ops w1) as [[fl2 w2]|] eqn:E; [|discriminate]. simpl.
  intros [= <- <-]. by exists fl1, w1, fl2.
Qed.

Lemma run_frame ops : ∀ w flags w',
  run ops w = Ok (flags, w') →
  waitSeconds w' = waitSeconds w ∧ (wf w → wf w') ∧
  ∃ new, trace w' = trace w ++ new.
Proof.
  induction ops as [|o ops IH]; intros w flags w' H.
  - injection H as <- <-. repeat split; [done|]. exists []. by rewrite app_nil_r.
  - apply run_cons_inv in H as (fl1 & w1 & fl2 & H1 & H2 & ->).
    apply exec_frame in H1 as (Hws1 & Hwf1 & new1 & Htr1).
    apply IH in H2 as (Hws2 & Hwf2 & new2 & Htr2).
    split; [congruence|]. split; [auto|].
    exists (new1 ++ new2). by rewrite Htr2, Htr1, app_assoc.
Qed.

(** One operation on a state where [k] is open: unless it ends the group,
    the group stays, with its seed fields. *)
Lemma exec_open k o w a fl w1 :
  albums w !! k = Some a →
  exec o w = Ok (fl, w1) →
  filter (removes k) (since w w1) = [] →
  ∃ a1,
    albums w1 !! k = Some a1 ∧ same_group a a1 ∧
    Messages a1 = Messages a ++ messages_for k [o] ∧
    Caption a1 = first_nonempty (Caption a :: captions_for k [o]) ∧
    ∀ b, (k, b) ∈ fl → b = false.
Proof.
  intros Hk Hex Hrm. destruct o as [k' msg md|k'|dt]; simpl in Hex.
  - destruct (AddMessage k' msg md w) as [[b w']|] eqn:E; [|discriminate].
    simpl in Hex. injection Hex as <- <-.
    cbn [messages_for captions_for].
    destruct (decide (k' = k)) as [->|Hne].
    + destruct (AddMessage_existing_inv _ _ _ _ _ _ _ Hk E)
        as (a' & -> & Hal & _ & _ & _ & Hg & Hm & Hc & _).
      exists a'. rewrite Hal, lookup_insert_eq.
      repeat split; try apply Hg; try done.
      * rewrite Hc. cbn [first_nonempty].
        destruct (nonempty (Caption a)); [done|].
        symmetry. apply first_nonempty_single.
      * intros b0 Hb. apply list_elem_of_singleton in Hb. congruence.
    + destruct (AddMessage_inv _ _ _ _ _ _ E) as (a' & new & Hal & _).
      exists a. rewrite Hal, lookup_insert_ne by done.
      rewrite app_nil_r, first_nonempty_single.
      repeat split; try done.
      intros b0 Hb. apply list_elem_of_singleton in Hb. congruence.
  - injection Hex as <- <-. cbn [messages_for captions_for].
    rewrite app_nil_r, first_nonempty_single.
    destruct (decide (k' = k)) as [->|Hne].
    + destruct (CancelAlbum_present k w a Hk) as (_ & _ & _ & Htr).
      rewrite (since_app _ _ _ Htr) in Hrm.
      rewrite filter_cons, decide_True in Hrm; [done|].
      unfold removes. simpl. by rewrite bool_decide_eq_true_2.
    + exists a.
      split; [|repeat split; try done; intros b Hb; by apply not_elem_of_nil in Hb].
      destruct (albums w !! k') as [a'|] eqn:E.
      * destruct (CancelAlbum_present k' w a' E) as (-> & _).
        by rewrite lookup_delete_ne.
      * by rewrite CancelAlbum_absent.
  - injection Hex as <- <-. cbn [messages_for captions_for].
    rewrite app_nil_r, first_nonempty_single.
    destruct (elapse_removes k dt w) as (_ & _ & new & Htr & H).
    rewrite (since_app _ _ _ Htr) in Hrm. rewrite Hk in H.
    destruct H as [H|[H _]]; [done|]. exists a.
    repeat split; try done. intros b Hb. by apply not_elem_of_nil in Hb.
Qed.

Lemma since_split w w1 w' new1 new2 :
  trace w1 = trace w ++ new1 → trace w' = trace w1 ++ new2 →
  since w w1 = new1 ∧ since w1 w' = new2 ∧ since w w' = new1 ++ new2.
Proof.
  intros H1 H2. repeat split; apply since_app; try done.
  by rewrite H2, H1, app_assoc.
Qed.

(** A run on a state where [k] is open: as long as the group is neither
    flushed nor cancelled, it gathers the messages supplied for [k], keeps
    the first non-empty caption, and every [AddMessage k] returns false. *)
Lemma run_open k ops : ∀ w a flags w',
  albums w !! k = Some a →
  run ops w = Ok (flags, w') →
  filter (removes k) (since w w') = [] →
  ∃ a',
    albums w' !! k = Some a' ∧ same_group a a' ∧
    Messages a' = Messages a ++ messages_for k ops ∧
    Caption a' = first_nonempty (Caption a :: captions_for k ops) ∧
    ∀ b, (k, b) ∈ flags → b = false.
Proof.
  induction ops as [|o ops IH]; intros w a flags w' Hk Hrun Hrm.
  - injection Hrun as <- <-. exists a. cbn [messages_for captions_for].
    rewrite app_nil_r, first_nonempty_single.
    repeat split; try done. intros b Hb. by apply not_elem_of_nil in Hb.
  - apply run_cons_inv in Hrun as (fl1 & w1 & fl2 & H1 & H2 & ->).
    destruct (exec_frame _ _ _ _ H1) as (_ & _ & new1 & Htr1).
    destruct (run_frame _ _ _ _ H2) as (_ & _ & new2 & Htr2).
    destruct (since_split _ _ _ _ _ Htr1 Htr2) as (S1 & S2 & S).
    rewrite S in Hrm. apply filter_removes_nil_app in Hrm as [Hrm1 Hrm2].
    rewrite <- S1 in Hrm1. rewrite <- S2 in Hrm2.
    destruct (exec_open k o w a fl1 w1 Hk H1 Hrm1)
      as (a1 & Hk1 & Hg1 & Hm1 & Hc1 & Hf1).
    destruct (IH w1 a1 fl2 w' Hk1 H2 Hrm2)
      as (a' & Hk' & Hg' & Hm' & Hc' & Hf').
    exists a'. split; [done|]. split; [by eapply same_group_trans|].
    split; [|split].
    + rewrite Hm', Hm1, (messages_for_cons k o ops). by rewrite app_assoc.
    + rewrite Hc', Hc1, (captions_for_cons k o ops).
      by rewrite app_comm_cons, first_nonempty_app.
    + intros b [Hb|Hb]%elem_of_app; auto.
Qed.

(** One operation on a state where [k] is not open, other than a call of
    [AddMessage] for [k]: nothing happens about [k]. *)
Lemma exec_absent k o w fl w1 :
  wf w → albums w !! k = None → adds_to k o = false →
  exec o w = Ok (fl, w1) →
  albums w1 !! k = None ∧ filter (about k) (since w w1) = [].
Proof.
  intros Hwf Hk Ho Hex. destruct o as [k' msg md|k'|dt]; simpl in Hex.
  - destruct (AddMessage k' msg md w) as [[b w']|] eqn:E; [|discriminate].
    simpl in Hex. injection Hex as <- <-.
    simpl in Ho. apply bool_decide_eq_false in Ho.
    destruct (AddMessage_inv _ _ _ _ _ _ E)
      as (a' & new & Hal & _ & _ & _ & Htr & Hq).
    rewrite Hal, lookup_insert_ne by done. split; [done|].
    rewrite (since_app _ _ _ Htr). by apply quiet_all_filter.
  - injection Hex as <- <-. destruct (albums w !! k') as [a'|] eqn:E.
    + destruct (CancelAlbum_present k' w a' E) as (Hal & _ & _ & Htr).
      assert (k' ≠ k) by congruence.
      rewrite Hal, lookup_delete_ne by done. split; [done|].
      rewrite (since_app _ _ _ Htr).
      rewrite filter_cons, decide_False; [done|].
      unfold about, removes. simpl. rewrite bool_decide_eq_false_2 by done.
      simpl. tauto.
    + rewrite CancelAlbum_absent by done. by rewrite since_refl.
  - injection Hex as <- <-.
    destruct (elapse_about k dt w Hwf) as (_ & _ & _ & new & Htr & H).
    rewrite Hk in H. rewrite (since_app _ _ _ Htr).
    by destruct (decide (k ∈ due_keys (clock w + dt) w)).
Qed.

Lemma run_absent k ops : ∀ w flags w',
  wf w → albums w !! k = None → Forall (λ o, adds_to k o = false) ops →
  run ops w = Ok (flags, w') →
  albums w' !! k = None ∧ filter (about k) (since w w') = [].
Proof.
  induction ops as [|o ops IH]; intros w flags w' Hwf Hk Hops Hrun.
  - injection Hrun as <- <-. by rewrite since_refl.
  - apply Forall_cons in Hops as [Ho Hops].
    apply run_cons_inv in Hrun as (fl1 & w1 & fl2 & H1 & H2 & ->).
    destruct (exec_frame _ _ _ _ H1) as (_ & Hwf1 & new1 & Htr1).
    destruct (run_frame _ _ _ _ H2) as (_ & _ & new2 & Htr2).
    destruct (since_split _ _ _ _ _ Htr1 Htr2) as (S1 & S2 & S).
    destruct (exec_absent k o w fl1 w1 Hwf Hk Ho H1) as (Hk1 & Hq1).
    destruct (IH w1 fl2 w' (Hwf1 Hwf) Hk1 Hops H2) as (Hk' & Hq2).
    split; [done|]. rewrite S, filter_app. rewrite S1 in Hq1.
    rewrite S2 in Hq2. by rewrite Hq1, Hq2.
Qed.

(** ** The number of pending albums *)

Lemma size_delete_present (m : gmap string AlbumData) k a :
  m !! k = Some a → Z.of_nat (size (delete k m)) = Z.of_nat (size m) - 1.
Proof.
  intros H. rewrite <- (insert_delete_id m k a H) at 2.
  rewrite map_size_insert_None by apply lookup_delete_eq. lia.
Qed.

Lemma size_insert_absent (m : gmap string AlbumData) k a :
  m !! k = None → Z.of_nat (size (<[k := a]> m)) = Z.of_nat (size m) + 1.
Proof. intros H. rewrite map_size_insert_None by done. lia. Qed.

(** ** Schedules *)

Lemma filter_key_nil (k : string) (l : list string) :
  filter (λ x, x = k) l = [] ↔ k ∉ l.
Proof.
  induction l as [|x l IH]; [split; [intros _; apply not_elem_of_nil|done]|].
  rewrite filter_cons, not_elem_of_cons. destruct (decide (x = k)) as [->|Hx].
  - split; [discriminate|]. intros [? _]. done.
  - rewrite IH. split; [intros ?; split; [congruence|done]|tauto].
Qed.

Lemma filter_remove_first_ne (k k' : string) (l : list string) :
  k' ≠ k →
  filter (λ x, x = k) (remove_first k' l) = filter (λ x, x = k) l.
Proof.
  intros Hne. induction l as [|x l IH]; [done|]. cbn [remove_first].
  destruct (decide (x = k')) as [->|Hx].
  - by rewrite filter_cons, decide_False.
  - by rewrite !filter_cons, IH.
Qed.

Lemma filter_remove_first_eq (k : string) (l : list string) :
  filter (λ x, x = k) (remove_first k l) = tail (filter (λ x, x = k) l).
Proof.
  induction l as [|x l IH]; [done|]. cbn [remove_first].
  destruct (decide (x = k)) as [->|Hx].
  - by rewrite filter_cons, decide_True.
  - rewrite !filter_cons. by rewrite !decide_False by done.
Qed.

Lemma since_grow w0 w w1 (old new : list effect) :
  trace w = trace w0 ++ old → trace w1 = trace w ++ new →
  since w0 w1 = since w0 w ++ new.
Proof.
  intros H1 H2. destruct (since_split _ _ _ _ _ H1 H2) as (-> & _ & ->). done.
Qed.

Lemma flushAlbum_cases k w :
  waitSeconds (flushAlbum k w) = waitSeconds w ∧
  clock (flushAlbum k w) = clock w ∧
  albums (flushAlbum k w) = delete k (albums w) ∧
  trace (flushAlbum k w)
    = trace w ++ from_option (flush_effects k) [] (albums w !! k).
Proof.
  destruct (albums w !! k) as [a|] eqn:E.
  - by destruct (flushAlbum_present k w a E) as (-> & -> & -> & ->).
  - rewrite flushAlbum_absent by done. simpl. rewrite app_nil_r.
    by rewrite delete_id.
Qed.

(** *** Time passes *)

Lemma wf_tick dt w : wf w → wf (tick dt w).
Proof. intros Hwf. by apply (wf_expire dt w). Qed.

Lemma orphans_tick dt w : orphans w = [] → orphans (tick dt w) = [].
Proof. intros Ho. unfold tick, expire. simpl. by rewrite Ho. Qed.

(** What a tick does about key [k]: its album's timer expires if it is
    due, and then one callback for [k] is started. *)
Lemma tick_key k dt w :
  orphans w = [] →
  albums (tick dt w) !! k = expire_album (clock w + dt) <$> albums w !! k ∧
  filter (λ x, x = k) (started (tick dt w)) =
    filter (λ x, x = k) (started w) ++
    (if decide (k ∈ due_keys (clock w + dt) w) then [k] else []) ∧
  (k ∈ due_keys (clock w + dt) w ↔
   ∃ a, albums w !! k = Some a ∧ due (clock w + dt) a = true).
Proof.
  intros Ho. split; [apply expire_lookup|]. split.
  - unfold tick. cbn [started set_started]. rewrite filter_app. f_equal.
    apply filter_eq_NoDup. by apply due_keys_NoDup.
  - rewrite due_keys_elem, Ho. split.
    + intros [H|(t & Hin & _)]; [done|]. by apply not_elem_of_nil in Hin.
    + by left.
Qed.

(** *** A callback runs *)

Lemma callback_waiting_none k w : k ∉ started w → callback k w = w.
Proof. intros H. unfold callback. by rewrite decide_False. Qed.

Lemma callback_frame k' w :
  waitSeconds (callback k' w) = waitSeconds w ∧
  clock (callback k' w) = clock w ∧
  orphans (callback k' w) = orphans w ∧
  enabled (callback k' w) = enabled w ∧
  (wf w → wf (callback k' w)) ∧
  albums (callback k' w)
    = (if decide (k' ∈ started w) then delete k' (albums w) else albums w) ∧
  started (callback k' w)
    = (if decide (k' ∈ started w) then remove_first k' (started w)
       else started w) ∧
  trace (callback k' w)
    = trace w ++ (if decide (k' ∈ started w)
                  then from_option (flush_effects k') [] (albums w !! k')
                  else []).
Proof.
  unfold callback. destruct (decide (k' ∈ started w)) as [Hin|Hin].
  - set (w1 := set_started (remove_first k' (started w)) w).
    destruct (flushAlbum_cases k' w1) as (-> & -> & -> & ->).
    destruct (flushAlbum_runtime k' w1) as (-> & -> & ->).
    repeat split. intros Hwf. by apply (wf_flushAlbum k' w1).
  - rewrite app_nil_r. by repeat split.
Qed.

(** A callback for another key leaves [k] alone. *)
Lemma callback_other k k' w :
  wf w → k' ≠ k →
  albums (callback k' w) !! k = albums w !! k ∧
  filter (λ x, x = k) (started (callback k' w))
    = filter (λ x, x = k) (started w) ∧
  ∃ new, trace (callback k' w) = trace w ++ new ∧ filter (about k) new = [].
Proof.
  intros Hwf Hne.
  destruct (callback_frame k' w) as (_ & _ & _ & _ & _ & -> & -> & ->).
  destruct (decide (k' ∈ started w)) as [Hin|Hin].
  - rewrite lookup_delete_ne by done. split; [done|].
    split; [by apply filter_remove_first_ne|]. eexists. split; [done|].
    destruct (albums w !! k') as [a'|] eqn:E; [|done]. simpl.
    apply flush_effects_other; [by apply Hwf|done].
  - split; [done|]. split; [done|]. by exists [].
Qed.

(** *** Calls for another key *)

Lemma AddMessage_other k k' msg md w b w1 :
  k' ≠ k → AddMessage k' msg md w = Ok (b, w1) →
  albums w1 !! k = albums w !! k ∧
  ∃ new, trace w1 = trace w ++ new ∧ filter (about k) new = [].
Proof.
  intros Hne H.
  destruct (AddMessage_inv _ _ _ _ _ _ H) as (a' & new & Hal & _ & _ & _ & Htr & Hq).
  rewrite Hal, lookup_insert_ne by done. split; [done|].
  exists new. split; [done|]. by apply quiet_all_filter.
Qed.

Lemma CancelAlbum_other k k' w :
  k' ≠ k →
  albums (CancelAlbum k' w) !! k = albums w !! k ∧
  waitSeconds (CancelAlbum k' w) = waitSeconds w ∧
  clock (CancelAlbum k' w) = clock w ∧
  ∃ new, trace (CancelAlbum k' w) = trace w ++ new ∧ filter (about k) new = [].
Proof.
  intros Hne. destruct (albums w !! k') as [a'|] eqn:E.
  - destruct (CancelAlbum_present k' w a' E) as (-> & -> & -> & ->).
    rewrite lookup_delete_ne by done. repeat split. eexists. split; [done|].
    rewrite filter_cons, decide_False; [done|].
    unfold about, removes. simpl. rewrite bool_decide_eq_false_2 by done.
    simpl. tauto.
  - rewrite CancelAlbum_absent by done. repeat split. exists [].
    by rewrite app_nil_r.
Qed.

(** *** One event, many events *)

Lemma step_frame e w r w1 :
  step e w = Ok (r, w1) →
  waitSeconds w1 = waitSeconds w ∧ clock w1 = clock w + duration [e] ∧
  enabled w1 = enabled w ∧
  (wf w → wf w1) ∧ (orphans w = [] → orphans w1 = []) ∧
  ∃ new, trace w1 = trace w ++ new.
Proof.
  destruct e as [k msg md took|k|dt|k]; simpl.
  - destruct (AddMessage k msg md w) as [[b w']|] eqn:E; [|discriminate].
    simpl. intros [= <- <-].
    destruct (AddMessage_inv _ _ _ _ _ _ E)
      as (a' & new & _ & _ & Hws & Hcl & Htr & _).
    destruct (AddMessage_runtime _ _ _ _ _ _ E) as (Ho & _ & Hen).
    split; [done|]. split; [simpl; lia|]. split; [done|].
    split; [|split].
    + intros Hwf. apply wf_tick. by eapply wf_AddMessage.
    + intros H. apply orphans_tick. congruence.
    + by exists new.
  - intros [= <- <-]. destruct (CancelAlbum_runtime k w) as (-> & _ & ->).
    split; [|split; [|split; [done|split; [apply wf_CancelAlbum|split; [done|]]]]].
    + destruct (albums w !! k) as [a|] eqn:E.
      * by destruct (CancelAlbum_present k w a E) as (_ & -> & _).
      * by rewrite CancelAlbum_absent.
    + destruct (albums w !! k) as [a|] eqn:E.
      * destruct (CancelAlbum_present k w a E) as (_ & _ & -> & _). lia.
      * rewrite CancelAlbum_absent by done. lia.
    + destruct (albums w !! k) as [a|] eqn:E.
      * destruct (CancelAlbum_present k w a E) as (_ & _ & _ & ->). eauto.
      * rewrite CancelAlbum_absent by done. exists []. by rewrite app_nil_r.
  - intros [= <- <-]. split; [done|]. split; [simpl; lia|]. split; [done|].
    split; [apply wf_tick|]. split; [apply orphans_tick|].
    exists []. by rewrite app_nil_r.
  - intros [= <- <-].
    destruct (callback_frame k w) as (-> & -> & -> & -> & Hwf & _ & _ & ->).
    split; [done|]. split; [lia|]. split; [done|]. split; [done|].
    split; [done|]. eauto.
Qed.

Lemma play_cons_inv e evs w res w' :
  play (e :: evs) w = Ok (res, w') →
  ∃ r1 w1 r2,
    step e w = Ok (r1, w1) ∧
    play evs w1 = Ok (r2, w') ∧ res = r1 ++ r2.
Proof.
  simpl. destruct (step e w) as [[r1 w1]|]; [|discriminate].
  simpl.
  destruct (play evs w1) as [[r2 w2]|] eqn:E; [|discriminate].
  simpl. intros [= <- <-]. by exists r1, w1, r2.
Qed.

Lemma play_cons e evs w r1 w1 r2 w' :
  step e w = Ok (r1, w1) →
  play evs w1 = Ok (r2, w') →
  play (e :: evs) w = Ok (r1 ++ r2, w').
Proof. intros H1 H2. cbn [play]. rewrite H1. simpl. by rewrite H2. Qed.

Lemma play_frame evs : ∀ w res w',
  play evs w = Ok (res, w') →
  waitSeconds w' = waitSeconds w ∧ clock w' = clock w + duration evs ∧
  enabled w' = enabled w ∧
  (wf w → wf w') ∧ (orphans w = [] → orphans w' = []) ∧
  ∃ new, trace w' = trace w ++ new.
Proof.
  induction evs as [|e evs IH]; intros w res w' H.
  - injection H as <- <-. simpl. rewrite Z.add_0_r. repeat split; try done.
    exists []. by rewrite app_nil_r.
  - apply play_cons_inv in H as (r1 & w1 & r2 & H1 & H2 & ->).
    apply step_frame in H1 as (Hws1 & Hcl1 & Hen1 & Hwf1 & Ho1 & new1 & Htr1).
    apply IH in H2 as (Hws2 & Hcl2 & Hen2 & Hwf2 & Ho2 & new2 & Htr2).
    split; [congruence|]. split.
    { rewrite Hcl2, Hcl1. destruct e; simpl; lia. }
    split; [congruence|]. split; [auto|]. split; [auto|].
    exists (new1 ++ new2). by rewrite Htr2, Htr1, app_assoc.
Qed.

(** One event on a state where [k] is not open, other than a call of
    [AddMessage] for [k]: nothing happens about [k], and no callback for
    [k] is started. *)
Lemma step_absent k e w r w1 :
  wf w → orphans w = [] → albums w !! k = None → ev_adds k e = false →
  step e w = Ok (r, w1) →
  albums w1 !! k = None ∧ filter (about k) (since w w1) = [] ∧
  (k ∉ started w → k ∉ started w1).
Proof.
  intros Hwf Ho Hk He Hst.
  assert (Htick : ∀ dt w2, orphans w2 = [] → albums w2 !! k = None →
            albums (tick dt w2) !! k = None ∧
            (k ∉ started w2 → k ∉ started (tick dt w2))).
  { intros dt w2 Ho2 Hk2. destruct (tick_key k dt w2 Ho2) as (-> & Hs & Hd).
    rewrite Hk2. split; [done|]. intros Hn. apply filter_key_nil.
    rewrite Hs. rewrite decide_False.
    - rewrite app_nil_r. by apply filter_key_nil.
    - rewrite Hd. intros (a & Ha & _). congruence. }
  destruct e as [k' msg md took|k'|dt|k']; simpl in Hst.
  - destruct (AddMessage k' msg md w) as [[b w']|] eqn:E; [|discriminate].
    simpl in Hst. injection Hst as <- <-.
    simpl in He. apply bool_decide_eq_false in He.
    destruct (AddMessage_other k k' _ _ _ _ _ He E) as (Hal & new & Htr & Hq).
    destruct (AddMessage_runtime _ _ _ _ _ _ E) as (Ho' & Hs' & _).
    destruct (Htick took w') as [H1 H2]; [congruence..|].
    split; [done|]. split.
    + change (since w (tick took w')) with (since w w').
      by rewrite (since_app _ _ _ Htr).
    + rewrite <- Hs'. exact H2.
  - injection Hst as <- <-. destruct (decide (k' = k)) as [->|Hne].
    + rewrite CancelAlbum_absent by done. by rewrite since_refl.
    + destruct (CancelAlbum_other k k' w Hne) as (-> & _ & _ & new & Htr & Hq).
      destruct (CancelAlbum_runtime k' w) as (_ & -> & _).
      split; [done|]. split; [|done]. by rewrite (since_app _ _ _ Htr).
  - injection Hst as <- <-. destruct (Htick dt w Ho Hk) as [H1 H2].
    split; [done|]. split; [|done].
    change (since w (tick dt w)) with (since w w). by rewrite since_refl.
  - injection Hst as <- <-. destruct (decide (k' = k)) as [->|Hne].
    + destruct (callback_frame k w) as (_ & _ & _ & _ & _ & Hal & Hs & Htr).
      rewrite Hk in Htr. simpl in Htr.
      assert (Htr' : trace (callback k w) = trace w ++ []).
      { rewrite Htr. by destruct (decide (k ∈ started w)). }
      split; [|split].
      * rewrite Hal. destruct (decide (k ∈ started w)); [|done].
        apply lookup_delete_eq.
      * by rewrite (since_app _ _ _ Htr').
      * intros Hn. by rewrite callback_waiting_none.
    + destruct (callback_other k k' w Hwf Hne) as (-> & Hs & new & Htr & Hq).
      split; [done|]. split; [by rewrite (since_app _ _ _ Htr)|].
      intros Hn. apply filter_key_nil. rewrite Hs. by apply filter_key_nil.
Qed.

Lemma play_absent k evs : ∀ w res w',
  wf w → orphans w = [] → albums w !! k = None →
  Forall (λ e, ev_adds k e = false) evs →
  play evs w = Ok (res, w') →
  albums w' !! k = None ∧ filter (about k) (since w w') = [] ∧
  (k ∉ started w → k ∉ started w').
Proof.
  induction evs as [|e evs IH]; intros w res w' Hwf Ho Hk Hevs Hp.
  - injection Hp as <- <-. by rewrite since_refl.
  - apply Forall_cons in Hevs as [He Hevs].
    apply play_cons_inv in Hp as (r1 & w1 & r2 & H1 & H2 & ->).
    destruct (step_frame _ _ _ _ H1) as (_ & _ & _ & Hwf1 & Ho1 & new1 & Htr1).
    destruct (play_frame _ _ _ _ H2) as (_ & _ & _ & _ & _ & new2 & Htr2).
    destruct (since_split _ _ _ _ _ Htr1 Htr2) as (S1 & S2 & S).
    destruct (step_absent k e w r1 w1 Hwf Ho Hk He H1) as (Hk1 & Hq1 & Hs1).
    destruct (IH w1 r2 w' (Hwf1 Hwf) (Ho1 Ho) Hk1 Hevs H2) as (Hk' & Hq2 & Hs2).
    split; [done|]. split; [|auto].
    rewrite S, filter_app. rewrite S1 in Hq1. rewrite S2 in Hq2.
    by rewrite Hq1, Hq2.
Qed.

(** ** The claims *)

(** C7: a flush or a cancellation for a key with no open album (already
    flushed, already cancelled, or never seen) returns the state as it was:
    the store and every other album are unchanged and nothing is logged or
    delivered.  After a flush or a cancellation the key is not open, so a
    second flush or cancellation changes nothing: cancelling is
    idempotent. *)
Theorem flush_cancel_absent_noop k w :
  albums w !! k = None →
  flushAlbum k w = w ∧ CancelAlbum k w = w ∧
  ∀ w0,
    albums (CancelAlbum k w0) !! k = None ∧
    albums (flushAlbum k w0) !! k = None ∧
    CancelAlbum k (CancelAlbum k w0) = CancelAlbum k w0 ∧
    CancelAlbum k (flushAlbum k w0) = flushAlbum k w0 ∧
    flushAlbum k (CancelAlbum k w0) = CancelAlbum k w0 ∧
    flushAlbum k (flushAlbum k w0) = flushAlbum k w0.
Proof.
  intros Hk. split; [by apply flushAlbum_absent|].
  split; [by apply CancelAlbum_absent|]. intros w0.
  assert (Hc : albums (CancelAlbum k w0) !! k = None).
  { destruct (albums w0 !! k) as [a|] eqn:E.
    - destruct (CancelAlbum_present k w0 a E) as (-> & _).
      apply lookup_delete_eq.
    - by rewrite CancelAlbum_absent. }
  assert (Hf : albums (flushAlbum k w0) !! k = None).
  { destruct (albums w0 !! k) as [a|] eqn:E.
    - destruct (flushAlbum_present k w0 a E) as (-> & _).
      apply lookup_delete_eq.
    - by rewrite flushAlbum_absent. }
  repeat split; try done;
    first [by apply CancelAlbum_absent | by apply flushAlbum_absent].
Qed.

(** C10: when the album's stored client is nil as its flush runs, the album
    is still removed from the store, so the pending count goes down by one,
    but the only effect is the log line: [sendEventWithWebHook] is not
    called and the items are dropped.  The same holds when the flush is
    run by the album's timer. *)
Theorem flush_nil_client_drops k w a :
  albums w !! k = Some a →
  MyCli a = None →
  albums (flushAlbum k w) = delete k (albums w) ∧
  GetPendingCount (flushAlbum k w) = GetPendingCount w - 1 ∧
  since w (flushAlbum k w) = [LogFlushing k (len (Messages a)) (ChatJID a)] ∧
  ∀ dt, wf w → due (clock w + dt) a = true →
    albums (elapse dt w) !! k = None ∧
    filter (about k) (since w (elapse dt w)) =
      [LogFlushing k (len (Messages a)) (ChatJID a)].
Proof.
  intros Hk Hcli.
  destruct (flushAlbum_present k w a Hk) as (Hal & _ & _ & Htr).
  assert (Hfe : flush_effects k a =
                [LogFlushing k (len (Messages a)) (ChatJID a)]).
  { unfold flush_effects. by rewrite Hcli. }
  split; [done|]. split; [|split].
  - unfold GetPendingCount. rewrite Hal. by eapply size_delete_present.
  - rewrite (since_app _ _ _ Htr). exact Hfe.
  - intros dt Hwf Hdue.
    destruct (elapse_about k dt w Hwf) as (_ & _ & _ & new & Htr' & H).
    rewrite decide_True in H by (by eapply due_keys_due).
    rewrite Hk in H. destruct H as [H1 H2].
    split; [done|]. by rewrite (since_app _ _ _ Htr'), H2.
Qed.

(** C6: cancelling an open album removes it from the store, so the pending
    count goes down by exactly one; it stops the album's timer, so no timer
    the runtime knows will call back for the key; the only effect is the
    log line, so the items are dropped; a later flush for the key changes
    nothing; and whatever happens afterwards (calls and cancellations for
    other keys, time passing, callbacks that run late or at once), short of
    a new [AddMessage] for the key, the key stays closed, nothing is flushed
    or delivered for it, and, when the album's timer had not expired as it
    was cancelled, no callback for the key is ever started. *)
Theorem cancel_discards_group k w a :
  wf w →
  orphans w = [] →
  albums w !! k = Some a →
  albums (CancelAlbum k w) = delete k (albums w) ∧
  GetPendingCount (CancelAlbum k w) = GetPendingCount w - 1 ∧
  since w (CancelAlbum k w) = [LogCancelled k] ∧
  (∀ t, (k, t) ∉ timers (CancelAlbum k w)) ∧
  (∀ now, k ∉ due_keys now (CancelAlbum k w)) ∧
  flushAlbum k (CancelAlbum k w) = CancelAlbum k w ∧
  (∀ evs res w2,
     Forall (λ e, ev_adds k e = false) evs →
     play evs (CancelAlbum k w) = Ok (res, w2) →
     albums w2 !! k = None ∧
     filter (flushes k) (since w w2) = [] ∧
     filter (delivers k) (since w w2) = [] ∧
     (k ∉ started w → k ∉ started w2)) ∧
  (∀ ops flags w2,
     Forall (λ o, adds_to k o = false) ops →
     run ops (CancelAlbum k w) = Ok (flags, w2) →
     albums w2 !! k = None ∧
     filter (flushes k) (since w w2) = [] ∧
     filter (delivers k) (since w w2) = []).
Proof.
  intros Hwf Ho Hk.
  destruct (CancelAlbum_present k w a Hk) as (Hal & _ & _ & Htr).
  destruct (CancelAlbum_runtime k w) as (Ho1 & Hs1 & _).
  rewrite Ho in Ho1.
  assert (Hgone : albums (CancelAlbum k w) !! k = None).
  { rewrite Hal. apply lookup_delete_eq. }
  assert (Hquiet : ∀ w2 (new : list effect),
            trace w2 = trace (CancelAlbum k w) ++ new →
            filter (about k) new = [] →
            filter (flushes k) (since w w2) = [] ∧
            filter (delivers k) (since w w2) = []).
  { intros w2 new Htr2 Hq.
    destruct (since_split _ _ _ _ _ Htr Htr2) as (_ & _ & ->).
    rewrite filter_flushes_about, filter_delivers_about.
    rewrite filter_app, Hq, app_nil_r.
    rewrite filter_cons, decide_True.
    2:{ unfold about, removes. simpl. rewrite bool_decide_eq_true_2 by done.
        done. }
    split; rewrite filter_cons, decide_False; try done; simpl; tauto. }
  split; [done|]. split; [|split; [|split; [|split; [|split; [|split]]]]].
  - unfold GetPendingCount. rewrite Hal. by eapply size_delete_present.
  - by rewrite (since_app _ _ _ Htr).
  - intros t Hin. unfold timers in Hin. rewrite Ho1, app_nil_r in Hin.
    apply attached_elem in Hin as (a' & Ha' & _). congruence.
  - intros now. apply due_keys_not_due; [done|]. intros a' Ha'. congruence.
  - by apply flushAlbum_absent.
  - intros evs res w2 Hevs Hplay.
    destruct (play_absent k evs _ _ _ (wf_CancelAlbum k w Hwf) Ho1 Hgone
                Hevs Hplay) as (Hk2 & Hq & Hs).
    destruct (play_frame _ _ _ _ Hplay) as (_ & _ & _ & _ & _ & new & Htr2).
    rewrite (since_app _ _ _ Htr2) in Hq.
    destruct (Hquiet w2 new Htr2 Hq) as [Hf Hd].
    split; [done|]. split; [done|]. split; [done|].
    intros Hn. apply Hs. by rewrite Hs1.
  - intros ops flags w2 Hops Hrun.
    destruct (run_absent k ops _ _ _ (wf_CancelAlbum k w Hwf) Hgone Hops Hrun)
      as (Hk2 & Hq).
    destruct (run_frame _ _ _ _ Hrun) as (_ & _ & new & Htr2).
    rewrite (since_app _ _ _ Htr2) in Hq.
    destruct (Hquiet w2 new Htr2 Hq) as [Hf Hd]. done.
Qed.

Lemma AddMessage_opens k msg md w b w1 :
  AddMessage k msg md w = Ok (b, w1) →
  (b = true ↔ albums w !! k = None) ∧
  ∃ a,
    albums w1 !! k = Some a ∧
    (b = true → ∃ m, md = Some m ∧ same_group (set_Timer None
       {| AlbumID := k; ChatJID := ChatJID m; SenderJID := SenderJID m;
          SenderAlt := SenderAlt m; Caption := Caption m;
          Timestamp := Timestamp m; Messages := []; Timer := None;
          UserID := UserID m; Token := Token m; MyCli := MyCli m |}) a ∧
       Caption a = Caption m ∧ Messages a = [msg]).
Proof.
  intros H. destruct (albums w !! k) as [a0|] eqn:Hk.
  - destruct (AddMessage_existing_inv _ _ _ _ _ _ _ Hk H)
      as (a & -> & Hal & _).
    split; [done|]. exists a. rewrite Hal, lookup_insert_eq. by split.
  - destruct (AddMessage_new_inv _ _ _ _ _ _ Hk H) as (m & -> & _).
    destruct (AddMessage_new k msg m w Hk)
      as (a & w' & H' & Hal & _ & _ & _ & Hid & Hch & Hsj & Hsa & Hca & Hts
          & Hu & Hto & Hcl & Hms & _).
    rewrite H' in H. injection H as <- <-.
    split; [done|]. exists a. rewrite Hal, lookup_insert_eq.
    split; [done|]. intros _. exists m. by repeat split.
Qed.

(** C4: [AddMessage] returns true exactly when the key has no open album as
    the call starts; and from any call of [AddMessage] for [k] on, every
    further [AddMessage] for [k] returns false for as long as the group is
    neither flushed nor cancelled.  So the creating call is the only one in
    the group's lifetime that returns true. *)
Theorem wasCreated_once_per_group k msg md w b w1 ops flags w2 :
  AddMessage k msg md w = Ok (b, w1) →
  run ops w1 = Ok (flags, w2) →
  filter (removes k) (since w1 w2) = [] →
  (b = true ↔ albums w !! k = None) ∧
  ∀ b', (k, b') ∈ flags → b' = false.
Proof.
  intros Hadd Hrun Hrm.
  destruct (AddMessage_opens _ _ _ _ _ _ Hadd) as (Hb & a & Hk1 & _).
  split; [done|].
  by destruct (run_open k ops w1 a flags w2 Hk1 Hrun Hrm) as (_ & _ & _ & _ & _ & ?).
Qed.

Lemma postmap_fields a :
  let postmap := build_postmap (build_payload a) in
  postmap !! "type" = Some (PStr "MessageAlbum") ∧
  postmap !! "albumId" = Some (PStr (AlbumID a)) ∧
  postmap !! "sender" = Some (PStr (SenderAlt a)) ∧
  postmap !! "senderLid" = Some (PStr (SenderJID a)) ∧
  postmap !! "chat" = Some (PStr (ChatJID a)) ∧
  postmap !! "caption" = Some (PStr (Caption a)) ∧
  postmap !! "timestamp" = Some (PStr (Format_RFC3339 (Timestamp a))) ∧
  postmap !! "totalImages" = Some (PInt (len (Messages a))) ∧
  postmap !! "images" = Some (PImages (Messages a)).
Proof. repeat split; reflexivity. Qed.

(** C5: the album's caption starts as the caption of the creating call; a
    later [AddMessage] for the key keeps a non-empty caption as it is and
    otherwise adopts the incoming one.  So while the group is open its
    caption is the first non-empty caption supplied for it, in call order,
    and that is the caption its flush delivers. *)
Theorem caption_first_nonempty k msg md w w1 ops flags w2 :
  AddMessage k msg (Some md) w = Ok (true, w1) →
  run ops w1 = Ok (flags, w2) →
  filter (removes k) (since w1 w2) = [] →
  ∃ a,
    albums w2 !! k = Some a ∧
    Caption a = first_nonempty (Caption md :: captions_for k ops) ∧
    since w2 (flushAlbum k w2) = flush_effects k a ∧
    build_postmap (build_payload a) !! "caption" =
      Some (PStr (first_nonempty (Caption md :: captions_for k ops))) ∧
    ∀ msg' md' b w3,
      AddMessage k msg' md' w2 = Ok (b, w3) →
      ∃ a',
        albums w3 !! k = Some a' ∧
        Caption a' =
          (if nonempty (Caption a) then Caption a
           else from_option Caption "" md').
Proof.
  intros Hadd Hrun Hrm.
  destruct (AddMessage_opens _ _ _ _ _ _ Hadd) as (_ & a1 & Hk1 & Hnew).
  destruct (Hnew eq_refl) as (m & [= <-] & _ & Hc1 & _).
  destruct (run_open k ops w1 a1 flags w2 Hk1 Hrun Hrm)
    as (a & Hk2 & _ & _ & Hc & _).
  rewrite Hc1 in Hc. exists a. split; [done|]. split; [done|].
  destruct (flushAlbum_present k w2 a Hk2) as (_ & _ & _ & Htr).
  split; [by apply since_app|]. split.
  { rewrite <- Hc. apply postmap_fields. }
  intros msg' md' b w3 Hadd'.
  destruct (AddMessage_existing_inv _ _ _ _ _ _ _ Hk2 Hadd')
    as (a' & _ & Hal & _ & _ & _ & _ & _ & Hc' & _).
  exists a'. by rewrite Hal, lookup_insert_eq.
Qed.

(** C2, as the code has it: the payload's [sender] is the [SenderAlt] of the
    creating call's metadata and its [senderLid] is that metadata's
    [SenderJID], for every album, however many messages it gathered before
    its flush. *)
Theorem payload_senders_crossed k msg md w w1 ops flags w2 :
  AddMessage k msg (Some md) w = Ok (true, w1) →
  run ops w1 = Ok (flags, w2) →
  filter (removes k) (since w1 w2) = [] →
  ∃ a,
    albums w2 !! k = Some a ∧
    since w2 (flushAlbum k w2) = flush_effects k a ∧
    Payload.Sender (build_payload a) = SenderAlt md ∧
    Payload.SenderLid (build_payload a) = SenderJID md ∧
    build_postmap (build_payload a) !! "sender" = Some (PStr (SenderAlt md)) ∧
    build_postmap (build_payload a) !! "senderLid" =
      Some (PStr (SenderJID md)).
Proof.
  intros Hadd Hrun Hrm.
  destruct (AddMessage_opens _ _ _ _ _ _ Hadd) as (_ & a1 & Hk1 & Hnew).
  destruct (Hnew eq_refl) as (m & [= <-] & Hg1 & _).
  destruct (run_open k ops w1 a1 flags w2 Hk1 Hrun Hrm)
    as (a & Hk2 & Hg & _).
  pose proof (same_group_trans _ _ _ Hg1 Hg) as (_ & _ & Hsj & Hsa & _).
  simpl in Hsj, Hsa.
  exists a. split; [done|].
  destruct (flushAlbum_present k w2 a Hk2) as (_ & _ & _ & Htr).
  split; [by apply since_app|].
  destruct (postmap_fields a) as (_ & _ & Hs & Hl & _).
  rewrite Hs, Hl. simpl. by rewrite Hsj, Hsa.
Qed.

(** C9, as the code has it: a call of [AddMessage] with metadata (a non-nil
    pointer) always returns, whatever the fields hold: the message is
    appended to the album under the key, which is created from the
    metadata's fields as they are, blank ones included, when the key is not
    open.  With nil metadata the call panics exactly when the key is not
    open or the open album's caption is empty. *)
Theorem AddMessage_with_metadata_returns k msg md w :
  (∃ b w' a,
     AddMessage k msg (Some md) w = Ok (b, w') ∧
     albums w' = <[k := a]> (albums w) ∧
     Messages a = from_option Messages [] (albums w !! k) ++ [msg] ∧
     match albums w !! k with
     | None =>
         b = true ∧ AlbumID a = k ∧ ChatJID a = ChatJID md ∧
         SenderJID a = SenderJID md ∧ SenderAlt a = SenderAlt md ∧
         Caption a = Caption md ∧ Timestamp a = Timestamp md ∧
         UserID a = UserID md ∧ Token a = Token md ∧ MyCli a = MyCli md
     | Some a0 => b = false ∧ same_group a0 a
     end) ∧
  (AddMessage k msg None w = Panic ↔
   albums w !! k = None ∨ ∃ a0, albums w !! k = Some a0 ∧ Caption a0 = "").
Proof.
  split.
  - destruct (AddMessage_Some_total k msg md w) as (b & w' & H).
    destruct (albums w !! k) as [a0|] eqn:Hk.
    + destruct (AddMessage_existing_inv _ _ _ _ _ _ _ Hk H)
        as (a & -> & Hal & _ & _ & _ & Hg & Hm & _).
      exists false, w', a. split; [done|]. split; [done|]. by split.
    + destruct (AddMessage_new k msg md w Hk)
        as (a & w1 & H1 & Hal & _ & _ & _ & Hid & Hch & Hsj & Hsa & Hca & Hts
            & Hu & Hto & Hcl & Hms & _).
      exists true, w1, a. by repeat split.
  - unfold AddMessage, merge_caption.
    destruct (albums w !! k) as [a0|] eqn:Hk; simpl.
    + destruct (nonempty (Caption a0)) eqn:Hc; simpl.
      * split; [discriminate|]. intros [?|(a & [= <-] & Hc')]; [done|].
        apply nonempty_true in Hc. done.
      * split; [|done]. intros _. right. exists a0.
        by apply nonempty_false in Hc.
    + split; auto.
Qed.

(** ** The debounce window *)

Lemma debounce_eq w w' : waitSeconds w' = waitSeconds w → debounce w' = debounce w.
Proof. unfold debounce. by intros ->. Qed.

Lemma due_AfterFunc d now dt a :
  Timer a = Some (AfterFunc d now) → 0 ≤ dt →
  due (now + dt) a = bool_decide (d ≤ dt).
Proof.
  intros Ht Hdt. unfold due. rewrite Ht. simpl. unfold deadline.
  destruct (Z.leb_spec d 0).
  - rewrite bool_decide_eq_true_2 by lia. apply Z.leb_le. lia.
  - destruct (decide (d ≤ dt)).
    + rewrite bool_decide_eq_true_2 by done. apply Z.leb_le. lia.
    + rewrite bool_decide_eq_false_2 by done. apply Z.leb_gt. lia.
Qed.

(** ** One group under a schedule *)

Lemma spaced_cons k d e evs now last :
  spaced k d (e :: evs) now last =
  (if ev_adds k e then now - last <? d else true) &&
  spaced k d evs (now + duration [e]) (if ev_adds k e then now else last).
Proof.
  destruct e as [k' msg md took|k'|dt|k'];
    cbn [spaced duration ev_adds]; rewrite ?Z.add_0_r; try done.
  destruct (decide (k' = k)).
  - by rewrite bool_decide_eq_true_2.
  - by rewrite bool_decide_eq_false_2.
Qed.

Lemma last_add_cons k e evs now last :
  last_add k (e :: evs) now last =
  last_add k evs (now + duration [e]) (if ev_adds k e then now else last).
Proof.
  destruct e as [k' msg md took|k'|dt|k'];
    cbn [last_add duration ev_adds]; rewrite ?Z.add_0_r; try done.
  destruct (decide (k' = k)).
  - by rewrite bool_decide_eq_true_2.
  - by rewrite bool_decide_eq_false_2.
Qed.

Lemma added_cons k e evs : added k (e :: evs) = added k [e] ++ added k evs.
Proof.
  destruct e as [k' msg md took|k'|dt|k']; cbn [added]; try done.
  by destruct (decide (k' = k)).
Qed.

Lemma spaced_before_deadline d now last :
  (now - last <? d) = true → now < deadline d last.
Proof.
  intros H%Z.ltb_lt. unfold deadline. destruct (Z.leb_spec d 0); lia.
Qed.

Lemma same_group_strip a a' : same_group a a' → same_group (strip a) (strip a').
Proof. done. Qed.

(** Events that leave the album, the started callbacks and the trace about
    [k] alone leave its group where it stood. *)
Lemma group_quiet k d last c w0 w w1 :
  albums w1 !! k = albums w !! k →
  filter (λ x, x = k) (started w1) = filter (λ x, x = k) (started w) →
  clock w1 = clock w →
  filter (about k) (since w0 w1) = filter (about k) (since w0 w) →
  group_state Format_RFC3339 k d last c w0 w →
  group_state Format_RFC3339 k d last c w0 w1.
Proof.
  intros Hal Hs Hcl Hq.
  assert (Hn : k ∉ started w → k ∉ started w1).
  { intros H. apply filter_key_nil. rewrite Hs. by apply filter_key_nil. }
  intros [H|[H|H]].
  - left. destruct H as (a & Ha & Hc & Ht & Hlt & Hns & Hf). exists a.
    rewrite Hal, Hcl, Hq. auto 10.
  - right; left. destruct H as (a & Ha & Hc & Ht & Hle & Hst & Hf). exists a.
    rewrite Hal, Hcl, Hq, Hs. auto 10.
  - right; right. destruct H as (Ha & Hle & Hns & Hf). unfold group_flushed.
    rewrite Hal, Hcl, Hq. auto.
Qed.

(** Time passes over an album whose timer is armed: the group waits on, or
    its timer expires and the callback is started. *)
Lemma tick_armed k d last w0 w a dt :
  orphans w = [] →
  albums w !! k = Some a →
  Timer a = Some (AfterFunc d last) →
  k ∉ started w →
  filter (about k) (since w0 w) = [] →
  group_state Format_RFC3339 k d last (strip a) w0 (tick dt w).
Proof.
  intros Ho Hk Ht Hn Hf.
  destruct (tick_key k dt w Ho) as (Hal & Hs & Hd). rewrite Hk in Hal.
  assert (Hdue : due (clock w + dt) a = (deadline d last <=? clock w + dt)).
  { unfold due. by rewrite Ht. }
  apply filter_key_nil in Hn.
  destruct (Z.leb_spec (deadline d last) (clock w + dt)) as [Hle|Hlt].
  - right; left. exists (expire_album (clock w + dt) a).
    split; [exact Hal|].
    split; [by destruct (expire_album_same k (clock w + dt) a)|].
    split; [unfold expire_album; by rewrite Hdue, Ht|].
    split; [exact Hle|]. split; [|exact Hf].
    rewrite Hs, Hn, decide_True; [done|]. apply Hd. eauto.
  - left. exists a. simpl in Hal.
    rewrite expire_album_not_due in Hal by done.
    split; [exact Hal|]. split; [done|]. split; [done|].
    split; [exact Hlt|]. split; [|exact Hf].
    apply filter_key_nil. rewrite Hs, Hn, decide_False; [done|].
    rewrite Hd. intros (a' & Ha' & Hd'). congruence.
Qed.

Lemma tick_group k d last c w0 w dt :
  orphans w = [] → 0 ≤ dt →
  group_state Format_RFC3339 k d last c w0 w →
  group_state Format_RFC3339 k d last c w0 (tick dt w).
Proof.
  intros Ho Hdt [H|[H|H]].
  - destruct H as (a & Ha & <- & Ht & _ & Hn & Hf). by eapply tick_armed.
  - destruct H as (a & Ha & Hc & Ht & Hle & Hs & Hf).
    destruct (tick_key k dt w Ho) as (Hal & Hs' & Hd). rewrite Ha in Hal.
    assert (Hdue : due (clock w + dt) a = false).
    { unfold due. by rewrite Ht. }
    simpl in Hal. rewrite expire_album_not_due in Hal by done.
    right; left. exists a. split; [exact Hal|]. split; [done|].
    split; [done|].
    split; [change (clock (tick dt w)) with (clock w + dt); lia|].
    split; [|exact Hf].
    rewrite Hs', Hs, decide_False; [done|].
    rewrite Hd. intros (a' & Ha' & Hd'). congruence.
  - destruct H as (Ha & Hle & Hn & Hf).
    destruct (tick_key k dt w Ho) as (Hal & Hs' & Hd). rewrite Ha in Hal.
    right; right. split; [exact Hal|].
    split; [change (clock (tick dt w)) with (clock w + dt); lia|].
    split; [|exact Hf].
    apply filter_key_nil. apply filter_key_nil in Hn.
    rewrite Hs', Hn, decide_False; [done|].
    rewrite Hd. intros (a' & Ha' & _). congruence.
Qed.

(** The callback for [k] runs: a group whose timer has expired is flushed;
    otherwise nothing happens. *)
Lemma callback_group k d last c w0 w :
  wf w → (∃ old, trace w = trace w0 ++ old) →
  group_state Format_RFC3339 k d last c w0 w →
  group_waiting k d last c w0 (callback k w) ∨
  group_flushed Format_RFC3339 k d last c w0 (callback k w).
Proof.
  intros Hwf [old Hold] [H|[H|H]].
  - left. destruct H as (a & Ha & Hc & Ht & Hlt & Hn & Hf).
    rewrite callback_waiting_none by done. exists a. auto 10.
  - right. destruct H as (a & Ha & Hc & Ht & Hle & Hs & Hf).
    assert (Hin : k ∈ started w).
    { assert (H : k ∈ filter (λ x, x = k) (started w)) by (rewrite Hs; left).
      by apply list_elem_of_filter in H as [_ H]. }
    destruct (callback_frame k w) as (_ & Hcl & _ & _ & _ & Hal & Hst & Htr).
    rewrite decide_True in Hal by done. rewrite decide_True in Hst by done.
    rewrite decide_True in Htr by done. rewrite Ha in Htr.
    simpl in Htr. split; [rewrite Hal; apply lookup_delete_eq|].
    split; [by rewrite Hcl|]. split.
    + apply filter_key_nil. by rewrite Hst, filter_remove_first_eq, Hs.
    + rewrite (since_grow _ _ _ _ _ Hold Htr), filter_app, Hf.
      rewrite flush_effects_own by (by apply Hwf).
      rewrite <- Hc. unfold strip. by rewrite flush_effects_Timer.
  - right. destruct H as (Ha & Hle & Hn & Hf).
    rewrite callback_waiting_none by done. done.
Qed.

(** A call for [k] while its group is waiting joins the group and arms the
    timer anew. *)
Lemma AddMessage_group k last c w0 w msg m :
  (∃ old, trace w = trace w0 ++ old) →
  group_waiting k (debounce w) last c w0 w →
  ∃ w1 a1,
    AddMessage k msg (Some m) w = Ok (false, w1) ∧
    albums w1 !! k = Some a1 ∧
    Timer a1 = Some (AfterFunc (debounce w) (clock w)) ∧
    same_group c (strip a1) ∧ Messages (strip a1) = Messages c ++ [msg] ∧
    (k ∉ started w1) ∧ filter (about k) (since w0 w1) = [].
Proof.
  intros [old Hold] (a & Ha & Hc & Ht & Hlt & Hn & Hf).
  destruct (AddMessage_Some_total k msg m w) as (b & w1 & Hadd).
  destruct (AddMessage_existing_inv _ _ _ _ _ _ _ Ha Hadd)
    as (a1 & -> & Hal & _ & _ & Htr & Hg & Hm & _ & Ht1).
  destruct (AddMessage_runtime _ _ _ _ _ _ Hadd) as (_ & Hs & _).
  rewrite Ht in Ht1.
  exists w1, a1. split; [done|].
  split; [by rewrite Hal, lookup_insert_eq|]. split; [done|].
  split; [rewrite <- Hc; by apply same_group_strip|].
  split; [by rewrite <- Hc|]. split; [by rewrite Hs|].
  rewrite (since_grow _ _ _ _ _ Hold Htr), filter_app, Hf.
  rewrite filter_cons, decide_False; [done|]. simpl. tauto.
Qed.

(** One event of a schedule, seen from the group of [k]. *)
Lemma step_group k e w0 w last c :
  wf w → orphans w = [] → (∃ old, trace w = trace w0 ++ old) →
  group_state Format_RFC3339 k (debounce w) last c w0 w →
  ev_with_metadata e = true → ev_forward e → ev_cancels k e = false →
  (ev_adds k e = true → (clock w - last <? debounce w) = true) →
  ∃ r w1 c1,
    step e w = Ok (r, w1) ∧
    same_group c c1 ∧ Messages c1 = Messages c ++ added k [e] ∧
    group_state Format_RFC3339 k (debounce w)
      (if ev_adds k e then clock w else last) c1 w0 w1.
Proof.
  intros Hwf Ho [old Hold] Hg Hmd Hfw Hnc Hsp.
  assert (Hquiet : ∀ w1 (new : list effect),
            trace w1 = trace w ++ new → filter (about k) new = [] →
            filter (about k) (since w0 w1) = filter (about k) (since w0 w)).
  { intros w1 new Htr Hq.
    by rewrite (since_grow _ _ _ _ _ Hold Htr), filter_app, Hq, app_nil_r. }
  destruct e as [k' msg md took|k'|dt|k']; cbn [step ev_adds added] in *.
  - destruct md as [m|]; [|discriminate]. destruct (decide (k' = k)) as [->|Hne].
    + rewrite bool_decide_eq_true_2 in * by done.
      specialize (Hsp eq_refl). apply spaced_before_deadline in Hsp.
      assert (Hw : group_waiting k (debounce w) last c w0 w).
      { destruct Hg as [H|[H|H]]; [done|exfalso..].
        - destruct H as (a & _ & _ & _ & Hle & _). lia.
        - destruct H as (_ & Hle & _). lia. }
      destruct (AddMessage_group k last c w0 w msg m (ex_intro _ old Hold) Hw)
        as (w1 & a1 & Hadd & Hk1 & Ht1 & Hsg & Hm & Hn1 & Hf1).
      destruct (AddMessage_runtime _ _ _ _ _ _ Hadd) as (Ho1 & _ & _).
      rewrite Hadd. simpl. eexists _, _, (strip a1). split; [done|].
      split; [done|]. split; [done|].
      apply (tick_armed k (debounce w) (clock w) w0 w1 a1 took); try done.
      congruence.
    + rewrite bool_decide_eq_false_2 in * by done.
      destruct (AddMessage_Some_total k' msg m w) as (b & w1 & Hadd).
      destruct (AddMessage_other k k' _ _ _ _ _ Hne Hadd)
        as (Hal & new & Htr & Hq).
      destruct (AddMessage_runtime _ _ _ _ _ _ Hadd) as (Ho1 & Hs1 & _).
      destruct (AddMessage_inv _ _ _ _ _ _ Hadd)
        as (_ & _ & _ & _ & _ & Hcl & _).
      rewrite Hadd. simpl. eexists _, _, c. split; [done|].
      split; [apply same_group_refl|]. split; [by rewrite app_nil_r|].
      apply tick_group; [congruence|done|].
      apply (group_quiet k _ last c w0 w w1); try done.
      * by rewrite Hs1.
      * by eapply Hquiet.
  - simpl in Hnc. apply bool_decide_eq_false in Hnc.
    destruct (CancelAlbum_other k k' w Hnc) as (Hal & _ & Hcl & new & Htr & Hq).
    destruct (CancelAlbum_runtime k' w) as (_ & Hs & _).
    eexists _, _, c. split; [done|].
    split; [apply same_group_refl|]. split; [by rewrite app_nil_r|].
    apply (group_quiet k _ last c w0 w); try done.
    * by rewrite Hs.
    * by eapply Hquiet.
  - eexists _, _, c. split; [done|].
    split; [apply same_group_refl|]. split; [by rewrite app_nil_r|].
    by apply tick_group.
  - eexists _, _, c. split; [done|].
    split; [apply same_group_refl|]. split; [by rewrite app_nil_r|].
    destruct (decide (k' = k)) as [->|Hne].
    + destruct (callback_group k _ last c w0 w Hwf (ex_intro _ old Hold) Hg)
        as [H|H]; [by left|by right; right].
    + destruct (callback_other k k' w Hwf Hne) as (Hal & Hs & new & Htr & Hq).
      destruct (callback_frame k' w) as (_ & Hcl & _).
      apply (group_quiet k _ last c w0 w); try done. by eapply Hquiet.
Qed.

(** A schedule, seen from the group of [k]: while every call for [k]
    performs its timer operation before the timer has expired, the group
    gathers the messages of all of them, and is flushed at most once, by
    the callback of the timer that the last of them armed. *)
Lemma play_group k evs : ∀ w0 w last c,
  wf w → orphans w = [] → (∃ old, trace w = trace w0 ++ old) →
  group_state Format_RFC3339 k (debounce w) last c w0 w →
  Forall (λ e, ev_with_metadata e = true) evs →
  Forall ev_forward evs →
  Forall (λ e, ev_cancels k e = false) evs →
  spaced k (debounce w) evs (clock w) last = true →
  ∃ res w' c',
    play evs w = Ok (res, w') ∧
    same_group c c' ∧ Messages c' = Messages c ++ added k evs ∧
    group_state Format_RFC3339 k (debounce w)
      (last_add k evs (clock w) last) c' w0 w'.
Proof.
  induction evs as [|e evs IH]; intros w0 w last c Hwf Ho Hold Hg Hmd Hfw Hnc Hsp.
  - exists [], w, c. split; [done|]. split; [apply same_group_refl|].
    split; [by rewrite app_nil_r|done].
  - apply Forall_cons in Hmd as [Hmd1 Hmd].
    apply Forall_cons in Hfw as [Hfw1 Hfw].
    apply Forall_cons in Hnc as [Hnc1 Hnc].
    rewrite spaced_cons in Hsp. apply andb_true_iff in Hsp as [Hsp1 Hsp].
    destruct (step_group k e w0 w last c Hwf Ho Hold Hg Hmd1 Hfw1 Hnc1)
      as (r1 & w1 & c1 & H1 & Hg1 & Hm1 & Hst1).
    { intros He. by rewrite He in Hsp1. }
    destruct (step_frame _ _ _ _ H1) as (Hws & Hcl & _ & Hwf1 & Ho1 & new & Htr).
    assert (Hd : debounce w1 = debounce w) by (by apply debounce_eq).
    destruct Hold as [old Hold].
    destruct (IH w0 w1 (if ev_adds k e then clock w else last) c1)
      as (r2 & w' & c' & H2 & Hg2 & Hm2 & Hst2); auto.
    { exists (old ++ new). by rewrite Htr, Hold, app_assoc. }
    { by rewrite Hd. }
    { by rewrite Hd, Hcl. }
    exists (r1 ++ r2), w', c'. split; [by apply (play_cons e evs w r1 w1)|].
    split; [by eapply same_group_trans|]. split.
    + by rewrite Hm2, Hm1, (added_cons k e evs), app_assoc.
    + rewrite last_add_cons. rewrite Hd, Hcl in Hst2. exact Hst2.
Qed.

(** C1 (as amended): debounce correctness under any schedule.  A call of
    [AddMessage] for a key that is not open, with no callback of an earlier
    group of the key still waiting to run, is followed by any schedule of
    further calls for the key, calls and cancellations for other keys, time
    passing and callbacks running, as late as the scheduler likes.  No
    call cancels the key, and each call for the key performs its timer
    operation less than the debounce duration after the timer operation of
    the call for the key before it, that is, before the timer has expired.
    Then every call returns, and the group gathers the messages of all the
    calls for the key, in call order.  At the end of the schedule either
    the album is still open and nothing has been flushed or delivered for
    the key, or the window of the last call has passed and the album has
    been flushed, once.  And once the window of the last call has passed
    and the callback has run, the album is gone, exactly one flush of the
    key has been logged, with the number of messages of the group, the
    webhook sender has been called for it once if the creating call had a
    client and not at all otherwise, with the messages in call order, and
    nothing that happens later, short of a new [AddMessage] for the key,
    flushes or delivers anything for it again. *)
Theorem debounce_flushes_once k msg md took evs w :
  wf w →
  orphans w = [] →
  albums w !! k = None →
  k ∉ started w →
  0 ≤ took →
  Forall (λ e, ev_with_metadata e = true) evs →
  Forall ev_forward evs →
  Forall (λ e, ev_cancels k e = false) evs →
  spaced k (debounce w) evs (clock w + took) (clock w) = true →
  ∃ res w' c,
    play (EvAdd k msg (Some md) took :: evs) w = Ok (res, w') ∧
    AlbumID c = k ∧ ChatJID c = ChatJID md ∧ MyCli c = MyCli md ∧
    Messages c = msg :: added k evs ∧
    (((∃ a, albums w' !! k = Some a ∧ strip a = c) ∧
      filter (about k) (since w w') = []) ∨
     (albums w' !! k = None ∧
      deadline (debounce w) (last_add k evs (clock w + took) (clock w))
        ≤ clock w' ∧
      filter (about k) (since w w') = flush_effects k c)) ∧
    ∀ dt,
      0 ≤ dt →
      deadline (debounce w) (last_add k evs (clock w + took) (clock w))
        ≤ clock w' + dt →
      albums (callback k (tick dt w')) !! k = None ∧
      filter (flushes k) (since w (callback k (tick dt w'))) =
        [LogFlushing k (len (msg :: added k evs)) (ChatJID md)] ∧
      filter (delivers k) (since w (callback k (tick dt w'))) =
        match MyCli md with
        | Some cli =>
            [SendEventWithWebHook cli (build_postmap (build_payload c)) ""]
        | None => []
        end ∧
      build_postmap (build_payload c) !! "images" =
        Some (PImages (msg :: added k evs)) ∧
      ∀ evs2 res2 w2,
        Forall (λ e, ev_adds k e = false) evs2 →
        play evs2 (callback k (tick dt w')) = Ok (res2, w2) →
        albums w2 !! k = None ∧
        filter (about k) (since (callback k (tick dt w')) w2) = [].
Proof.
  intros Hwf Ho Hk Hn Htook Hmd Hfw Hnc Hsp.
  (* the creating call *)
  destruct (AddMessage_new k msg md w Hk)
    as (a & w1 & Hadd & Hal & Hws & Hcl & Htr & Hid & Hch & _ & _ & _ & _
        & _ & _ & Hcli & Hms & Ht).
  destruct (AddMessage_runtime _ _ _ _ _ _ Hadd) as (Ho1 & Hs1 & _).
  assert (Hk1 : albums w1 !! k = Some a) by (by rewrite Hal, lookup_insert_eq).
  assert (Hg : group_state Format_RFC3339 k (debounce w) (clock w) (strip a) w
                 (tick took w1)).
  { apply tick_armed; try done; [congruence|by rewrite Hs1|].
    rewrite (since_app _ _ _ Htr). apply quiet_all_filter.
    by repeat constructor. }
  assert (Hwf2 : wf (tick took w1)) by (apply wf_tick; by eapply wf_AddMessage).
  assert (Ho2 : orphans (tick took w1) = [])
    by (apply orphans_tick; congruence).
  assert (Hd2 : debounce (tick took w1) = debounce w)
    by (apply debounce_eq; exact Hws).
  assert (Hcl2 : clock (tick took w1) = clock w + took)
    by (change (clock (tick took w1)) with (clock w1 + took); by rewrite Hcl).
  assert (Hstep : step (EvAdd k msg (Some md) took) w
                  = Ok ([(k, true, clock (tick took w1))], tick took w1)).
  { cbn [step]. by rewrite Hadd. }
  (* the schedule that follows *)
  destruct (play_group k evs w (tick took w1) (clock w) (strip a))
    as (res & w' & c & Hplay & Hsg & Hm & Hst); try done.
  { eexists. exact Htr. }
  { by rewrite Hd2. }
  { by rewrite Hd2, Hcl2. }
  rewrite Hd2, Hcl2 in Hst.
  destruct Hsg as (Hid' & Hch' & _ & _ & _ & _ & _ & Hcli').
  change (AlbumID (strip a)) with (AlbumID a) in Hid'.
  change (ChatJID (strip a)) with (ChatJID a) in Hch'.
  change (MyCli (strip a)) with (MyCli a) in Hcli'.
  destruct (play_frame _ _ _ _ Hplay) as (Hws' & _ & _ & Hwf' & Ho' & new & Htr').
  specialize (Hwf' Hwf2). specialize (Ho' Ho2).
  assert (Hold : ∃ old, trace w' = trace w ++ old).
  { eexists. rewrite Htr'.
    change (trace (tick took w1)) with (trace w1).
    rewrite Htr, <- app_assoc. reflexivity. }
  assert (Hd' : debounce w' = debounce w).
  { rewrite <- Hd2. by apply debounce_eq. }
  assert (Hmsgs : Messages c = msg :: added k evs).
  { rewrite Hm. change (Messages (strip a)) with (Messages a).
    by rewrite Hms. }
  exists ([(k, true, clock (tick took w1))] ++ res), w', c.
  split; [by apply (play_cons _ _ _ _ (tick took w1))|].
  split; [by rewrite Hid'|]. split; [by rewrite Hch'|].
  split; [by rewrite Hcli'|]. split; [done|]. split.
  - destruct Hst as [H|[H|H]].
    + left. destruct H as (a' & Ha' & Hc' & _ & _ & _ & Hf). eauto.
    + left. destruct H as (a' & Ha' & Hc' & _ & _ & _ & Hf). eauto.
    + right. destruct H as (Ha' & Hle & _ & Hf). auto.
  - intros dt Hdt Hle.
    pose proof (tick_group k (debounce w)
                  (last_add k evs (clock w + took) (clock w)) c w w' dt
                  Ho' Hdt Hst) as Hst1.
    destruct (callback_group k (debounce w)
                (last_add k evs (clock w + took) (clock w)) c w (tick dt w')
                (wf_tick dt w' Hwf') Hold Hst1) as [H|H].
    { exfalso. destruct H as (a' & _ & _ & _ & Hlt & _).
      destruct (callback_frame k (tick dt w')) as (_ & Hclk & _).
      rewrite Hclk in Hlt.
      change (clock (tick dt w')) with (clock w' + dt) in Hlt. lia. }
    destruct H as (Ha' & _ & Hn' & Hf).
    destruct (callback_frame k (tick dt w')) as (_ & _ & Ho3 & _ & Hwf3 & _).
    split; [done|]. split; [|split; [|split; [|]]].
    + rewrite filter_flushes_about, Hf, flush_effects_flushes.
      by rewrite Hmsgs, Hch', Hch.
    + rewrite filter_delivers_about, Hf.
      rewrite flush_effects_delivers by (by rewrite Hid').
      by rewrite Hcli', Hcli.
    + destruct (postmap_fields c) as (_ & _ & _ & _ & _ & _ & _ & _ & ->).
      by rewrite Hmsgs.
    + intros evs2 res2 w2 Hevs2 Hplay2.
      destruct (play_absent k evs2 _ _ _ (Hwf3 (wf_tick dt w' Hwf'))
                  (eq_trans Ho3 (orphans_tick dt w' Ho')) Ha' Hevs2 Hplay2)
        as (Hk2 & Hq2 & _).
      done.
Qed.


(** ** A buffer with one album *)

Lemma due_keys_nil now w :
  (∀ k a, albums w !! k = Some a → due now a = false) → orphans w = [] →
  due_keys now w = [].
Proof.
  intros H Ho. destruct (due_keys now w) as [|k l] eqn:E; [done|].
  assert (Hin : k ∈ due_keys now w) by (rewrite E; left).
  exfalso. revert Hin. apply due_keys_not_due; [done|]. apply H.
Qed.

Lemma due_keys_singleton now k a w :
  albums w = {[k := a]} → orphans w = [] → due now a = true →
  due_keys now w = [k].
Proof.
  intros Hal Ho Hd. pose proof (due_keys_NoDup now w Ho) as Hnd.
  assert (Hin : ∀ x, x ∈ due_keys now w ↔ x = k).
  { intros x. rewrite due_keys_elem, Hal, Ho. split.
    - intros [(a' & [-> _]%lookup_singleton_Some & _)|(t & Hin & _)]; [done|].
      by apply not_elem_of_nil in Hin.
    - intros ->. left. exists a. by rewrite lookup_singleton_eq. }
  destruct (due_keys now w) as [|x [|y l]].
  - specialize (Hin k) as [_ Hin]. specialize (Hin eq_refl).
    by apply not_elem_of_nil in Hin.
  - f_equal. apply Hin. left.
  - assert (x = k) as -> by (apply Hin; left).
    assert (y = k) as -> by (apply Hin; right; left).
    apply NoDup_cons in Hnd as [Hnd _]. exfalso. apply Hnd. left.
Qed.

Lemma expire_none_due dt w :
  (∀ k a, albums w !! k = Some a → due (clock w + dt) a = false) →
  orphans w = [] →
  expire dt w = set_clock (clock w + dt) w.
Proof.
  intros H Ho. unfold expire, set_clock. rewrite Ho. f_equal.
  apply map_eq. intros k. rewrite lookup_fmap.
  destruct (albums w !! k) as [a|] eqn:E; [|done]. simpl.
  by rewrite expire_album_not_due by (by eapply H).
Qed.

(** C3, as the code has it: on a fresh buffer, [AddMessage "ALBUM1"] with
    caption "hi" returns true and one album is pending; a second call
    within the window, with an empty caption, returns false and one album
    is still pending; once the window has passed with no further call, the
    trace holds exactly one call of the webhook sender, made with the
    client of the first call and a payload of type "MessageAlbum", album id
    "ALBUM1", 2 images, caption "hi" and both messages in order; and no
    album is pending. *)
Theorem album1_scenario ws en now msg1 msg2 seed1 seed2 cli dt1 dt2 :
  Caption seed1 = "hi" →
  Caption seed2 = "" →
  MyCli seed1 = Some cli →
  0 ≤ dt1 < debounce (InitAlbumBuffer ws en now) →
  debounce (InitAlbumBuffer ws en now) ≤ dt2 →
  ∃ w1 w2 postmap,
    AddMessage "ALBUM1" msg1 (Some seed1) (InitAlbumBuffer ws en now)
      = Ok (true, w1) ∧
    GetPendingCount w1 = 1 ∧
    AddMessage "ALBUM1" msg2 (Some seed2) (elapse dt1 w1) = Ok (false, w2) ∧
    GetPendingCount w2 = 1 ∧
    trace (elapse dt2 w2) =
      [LogInitialized ws en;
       LogNewAlbum "ALBUM1" (ChatJID seed1) ws;
       LogMessageAdded "ALBUM1" (ID msg1) 1;
       LogMessageAdded "ALBUM1" (ID msg2) 2;
       LogFlushing "ALBUM1" 2 (ChatJID seed1);
       SendEventWithWebHook cli postmap ""] ∧
    postmap !! "type" = Some (PStr "MessageAlbum") ∧
    postmap !! "albumId" = Some (PStr "ALBUM1") ∧
    postmap !! "totalImages" = Some (PInt 2) ∧
    postmap !! "caption" = Some (PStr "hi") ∧
    postmap !! "images" = Some (PImages [msg1; msg2]) ∧
    GetPendingCount (elapse dt2 w2) = 0.
Proof.
  intros Hc1 Hc2 Hcli Hdt1 Hdt2.
  set (w0 := InitAlbumBuffer ws en now) in *.
  set (d := debounce w0) in *.
  set (a1 := {| AlbumID := "ALBUM1"; ChatJID := ChatJID seed1;
                SenderJID := SenderJID seed1; SenderAlt := SenderAlt seed1;
                Caption := "hi"; Timestamp := Timestamp seed1;
                Messages := [msg1]; Timer := Some (AfterFunc d now);
                UserID := UserID seed1; Token := Token seed1;
                MyCli := Some cli |}).
  set (w1 := {| albums := {[ "ALBUM1" := a1 ]}; waitSeconds := ws;
                enabled := en; clock := now; orphans := []; started := [];
                trace := [LogInitialized ws en;
                          LogNewAlbum "ALBUM1" (ChatJID seed1) ws;
                          LogMessageAdded "ALBUM1" (ID msg1) 1] |}).
  assert (H1 : AddMessage "ALBUM1" msg1 (Some seed1) w0 = Ok (true, w1)).
  { unfold AddMessage, w0. simpl. unfold append_message. simpl.
    rewrite Hc1, Hcli. reflexivity. }
  assert (Hd1 : due (now + dt1) a1 = false).
  { rewrite (due_AfterFunc d now dt1 a1); [|reflexivity|lia].
    apply bool_decide_eq_false_2. lia. }
  assert (He1 : elapse dt1 w1 = set_clock (now + dt1) w1).
  { assert (Hnone : ∀ k a, albums w1 !! k = Some a →
                             due (clock w1 + dt1) a = false).
    { intros k a Hka. cbn [albums w1] in Hka.
      apply lookup_singleton_Some in Hka as [_ <-]. exact Hd1. }
    unfold elapse. rewrite (due_keys_nil _ w1 Hnone eq_refl). cbn [foldl].
    exact (expire_none_due dt1 w1 Hnone eq_refl). }
  set (a2 := set_Messages [msg1; msg2]
               (set_Timer (Some (AfterFunc d (now + dt1))) a1)).
  set (w2 := {| albums := {[ "ALBUM1" := a2 ]}; waitSeconds := ws;
                enabled := en; clock := now + dt1; orphans := [];
                started := [];
                trace := [LogInitialized ws en;
                          LogNewAlbum "ALBUM1" (ChatJID seed1) ws;
                          LogMessageAdded "ALBUM1" (ID msg1) 1;
                          LogMessageAdded "ALBUM1" (ID msg2) 2] |}).
  assert (H2 : AddMessage "ALBUM1" msg2 (Some seed2) (elapse dt1 w1)
               = Ok (false, w2)).
  { rewrite He1. unfold AddMessage. simpl. rewrite lookup_singleton_eq.
    unfold merge_caption. simpl. unfold append_message, w2. simpl.
    by rewrite insert_singleton_eq. }
  assert (Hd2 : due (now + dt1 + dt2) a2 = true).
  { rewrite (due_AfterFunc d (now + dt1) dt2 a2); [|reflexivity|lia].
    apply bool_decide_eq_true_2. lia. }
  set (w2x := {| albums := {[ "ALBUM1" := set_Timer (ran <$> Timer a2) a2 ]};
                 waitSeconds := ws; enabled := en; clock := now + dt1 + dt2;
                 orphans := []; started := []; trace := trace w2 |}).
  assert (Hx2 : expire dt2 w2 = w2x).
  { unfold expire, w2x. cbn [albums clock orphans w2].
    rewrite map_fmap_singleton. unfold expire_album. rewrite Hd2.
    reflexivity. }
  assert (He2 : elapse dt2 w2 = flushAlbum "ALBUM1" w2x).
  { unfold elapse.
    rewrite (due_keys_singleton (clock w2 + dt2) "ALBUM1" a2 w2
               eq_refl eq_refl Hd2).
    cbn [foldl]. by rewrite Hx2. }
  exists w1, w2, (build_postmap (build_payload a2)).
  split; [done|]. split.
  { unfold GetPendingCount. simpl. by rewrite map_size_singleton. }
  split; [done|]. split.
  { unfold GetPendingCount. simpl. by rewrite map_size_singleton. }
  rewrite He2. unfold flushAlbum. simpl. rewrite lookup_singleton_eq.
  split; [reflexivity|].
  repeat split; reflexivity.
Qed.

End FlushFacts.

(** ** The claims on sample runs *)

Lemma wf_fresh : wf fresh.
Proof. apply wf_Init. Qed.

Lemma wf_opened : wf opened.
Proof.
  apply (wf_AddMessage "ALBUM1" m1 (Some seed_hi) fresh true); [apply wf_Init|].
  vm_compute. reflexivity.
Qed.

Lemma wf_opened_nil_client : wf opened_nil_client.
Proof.
  apply (wf_AddMessage "ALBUM1" m1 (Some (seed "hi" None)) fresh true);
    [apply wf_Init|].
  vm_compute. reflexivity.
Qed.

Lemma debounce_flushes_once_witness :
  (wf busy ∧ orphans busy = [] ∧ albums busy !! "ALBUM1" = None ∧
   ("ALBUM1" ∉ started busy) ∧ 0 ≤ 1000000 ∧
   Forall (λ e, ev_with_metadata e = true) in_window ∧
   Forall ev_forward in_window ∧
   Forall (λ e, ev_cancels "ALBUM1" e = false) in_window ∧
   spaced "ALBUM1" (debounce busy) in_window (clock busy + 1000000) (clock busy)
     = true) ∧
  ∃ res w' c,
    play sample_format
      (EvAdd "ALBUM1" m2 (Some seed_blank) 1000000 :: in_window) busy
      = Ok (res, w') ∧
    Messages c = [m2; m3] ∧
    filter (flushes "ALBUM1")
      (since busy (callback sample_format "ALBUM1" (tick 5000000000 w')))
      = [LogFlushing "ALBUM1" 2 (ChatJID seed_blank)].
Proof.
  assert (H1 : wf busy).
  { assert (Hp : play sample_format
                   [EvAdd "ALBUM2" m3 (Some seed_blank) 0; EvTick 4000000000]
                   fresh
                 = Ok ([("ALBUM2", true, 0)], busy)) by (vm_compute; reflexivity).
    destruct (play_frame sample_format _ _ _ _ Hp) as (_ & _ & _ & Hwf & _).
    apply Hwf, wf_Init. }
  assert (H2 : orphans busy = []) by (vm_compute; reflexivity).
  assert (H3 : albums busy !! "ALBUM1" = None) by (vm_compute; reflexivity).
  assert (H4 : "ALBUM1" ∉ started busy).
  { assert (Hs : started busy = []) by (vm_compute; reflexivity).
    rewrite Hs. apply not_elem_of_nil. }
  assert (H5 : 0 ≤ 1000000) by lia.
  assert (H6 : Forall (λ e, ev_with_metadata e = true) in_window)
    by (repeat constructor).
  assert (H7 : Forall ev_forward in_window)
    by (repeat constructor; simpl; lia).
  assert (H8 : Forall (λ e, ev_cancels "ALBUM1" e = false) in_window)
    by (repeat constructor).
  assert (H9 : spaced "ALBUM1" (debounce busy) in_window
                 (clock busy + 1000000) (clock busy) = true)
    by (vm_compute; reflexivity).
  split; [exact (conj H1 (conj H2 (conj H3 (conj H4 (conj H5 (conj H6
            (conj H7 (conj H8 H9))))))))|].
  destruct (debounce_flushes_once sample_format "ALBUM1" m2 seed_blank 1000000
              in_window busy H1 H2 H3 H4 H5 H6 H7 H8 H9)
    as (res & w' & c & Hplay & _ & _ & _ & Hm & _ & Hlate).
  assert (Hp : play sample_format
                 (EvAdd "ALBUM1" m2 (Some seed_blank) 1000000 :: in_window) busy
               = Ok ([("ALBUM1", true, 4001000000);
                      ("ALBUM1", false, 8501000000)],
                     play_world
                       (EvAdd "ALBUM1" m2 (Some seed_blank) 1000000 :: in_window)
                       busy)) by (vm_compute; reflexivity).
  assert (Hw : w' = play_world
                      (EvAdd "ALBUM1" m2 (Some seed_blank) 1000000 :: in_window)
                      busy) by congruence.
  destruct (Hlate 5000000000) as (_ & Hf & _); [lia| |].
  { rewrite Hw. vm_compute. congruence. }
  exists res, w', c. exact (conj Hplay (conj Hm Hf)).
Defined.

(** The claim C1 as stated fails.  Three calls for one album, each
    completing less than the 5 seconds of the wait after the one before (at
    1 ms, at 5.0005 s and at 6.0005 s): the second performs its timer
    operation after the timer has expired, so the callback, which waits for
    the lock, flushes the album with two messages as soon as the call has
    completed, and the third call opens a second album, flushed later.  Two
    flushes are logged, not one with the three messages. *)
Lemma late_reset_splits_group :
  ∃ w,
    play sample_format race fresh
      = Ok ([("ALBUM1", true, 1000000); ("ALBUM1", false, 5000500000);
             ("ALBUM1", true, 6000500000)], w) ∧
    Forall ev_forward race ∧
    gaps_below (debounce fresh) [1000000; 5000500000; 6000500000] = true ∧
    albums w !! "ALBUM1" = None ∧
    filter (flushes "ALBUM1") (since fresh w)
      = [LogFlushing "ALBUM1" 2 (ChatJID seed_hi);
         LogFlushing "ALBUM1" 1 (ChatJID seed_blank)] ∧
    filter (flushes "ALBUM1") (since fresh w)
      ≠ [LogFlushing "ALBUM1" 3 (ChatJID seed_hi)] ∧
    flat_map images_of (filter (delivers "ALBUM1") (since fresh w))
      = [m1; m2; m3] ∧
    length (filter (delivers "ALBUM1") (since fresh w)) = 2%nat.
Proof.
  exists (play_world race fresh).
  split; [vm_compute; reflexivity|].
  split; [repeat constructor; simpl; lia|].
  split; [vm_compute; reflexivity|].
  split; [vm_compute; reflexivity|].
  assert (Hf : filter (flushes "ALBUM1") (since fresh (play_world race fresh))
               = [LogFlushing "ALBUM1" 2 (ChatJID seed_hi);
                  LogFlushing "ALBUM1" 1 (ChatJID seed_blank)])
    by (vm_compute; reflexivity).
  split; [exact Hf|]. split; [rewrite Hf; discriminate|].
  split; vm_compute; reflexivity.
Qed.


Lemma payload_senders_crossed_witness :
  (AddMessage "ALBUM1" m1 (Some seed_hi) fresh = Ok (true, opened) ∧
   run sample_format more_calls opened
     = Ok (run_flags more_calls opened, run_world more_calls opened) ∧
   filter (removes "ALBUM1") (since opened (run_world more_calls opened)) = []) ∧
  ∃ a,
    albums (run_world more_calls opened) !! "ALBUM1" = Some a ∧
    since (run_world more_calls opened)
      (flushAlbum sample_format "ALBUM1" (run_world more_calls opened))
      = flush_effects sample_format "ALBUM1" a ∧
    Payload.Sender (build_payload sample_format a) = SenderAlt seed_hi ∧
    Payload.SenderLid (build_payload sample_format a) = SenderJID seed_hi ∧
    build_postmap (build_payload sample_format a) !! "sender"
      = Some (PStr (SenderAlt seed_hi)) ∧
    build_postmap (build_payload sample_format a) !! "senderLid"
      = Some (PStr (SenderJID seed_hi)).
Proof.
  assert (H1 : AddMessage "ALBUM1" m1 (Some seed_hi) fresh = Ok (true, opened))
    by (vm_compute; reflexivity).
  assert (H2 : run sample_format more_calls opened
               = Ok (run_flags more_calls opened, run_world more_calls opened))
    by (vm_compute; reflexivity).
  assert (H3 : filter (removes "ALBUM1")
                 (since opened (run_world more_calls opened)) = [])
    by (vm_compute; reflexivity).
  split; [exact (conj H1 (conj H2 H3))|].
  exact (payload_senders_crossed sample_format "ALBUM1" m1 seed_hi fresh opened
           more_calls _ _ H1 H2 H3).
Defined.

(** The claim C2 as stated fails: the album of a first call whose metadata
    has [SenderJID] "8353895989430@lid" and [SenderAlt]
    "62817147127@s.whatsapp.net" is delivered with the alternate id as
    [sender] and the primary one as [senderLid]. *)
Lemma payload_sender_is_alternate :
  ∃ w cli postmap,
    run sample_format
      [OpAdd "ALBUM1" m1 (Some seed_hi); OpElapse 5000000000] fresh
      = Ok ([("ALBUM1", true)], w) ∧
    filter (delivers "ALBUM1") (since fresh w)
      = [SendEventWithWebHook cli postmap ""] ∧
    postmap !! "sender" = Some (PStr "62817147127@s.whatsapp.net") ∧
    postmap !! "sender" ≠ Some (PStr (SenderJID seed_hi)) ∧
    postmap !! "senderLid" = Some (PStr "8353895989430@lid") ∧
    postmap !! "senderLid" ≠ Some (PStr (SenderAlt seed_hi)).
Proof.
  eexists _, _, _. split; [vm_compute; reflexivity|].
  split; [vm_compute; reflexivity|].
  repeat split; vm_compute; congruence.
Qed.

Lemma album1_scenario_witness :
  (Caption seed_hi = "hi" ∧ Caption seed_blank = "" ∧
   MyCli seed_hi = Some cli1 ∧
   0 ≤ 1000000000 < debounce (InitAlbumBuffer 5 true 0) ∧
   debounce (InitAlbumBuffer 5 true 0) ≤ 5000000000) ∧
  ∃ w1 w2 postmap,
    AddMessage "ALBUM1" m1 (Some seed_hi) (InitAlbumBuffer 5 true 0)
      = Ok (true, w1) ∧
    GetPendingCount w1 = 1 ∧
    AddMessage "ALBUM1" m2 (Some seed_blank)
      (elapse sample_format 1000000000 w1) = Ok (false, w2) ∧
    GetPendingCount w2 = 1 ∧
    trace (elapse sample_format 5000000000 w2) =
      [LogInitialized 5 true;
       LogNewAlbum "ALBUM1" (ChatJID seed_hi) 5;
       LogMessageAdded "ALBUM1" (ID m1) 1;
       LogMessageAdded "ALBUM1" (ID m2) 2;
       LogFlushing "ALBUM1" 2 (ChatJID seed_hi);
       SendEventWithWebHook cli1 postmap ""] ∧
    postmap !! "type" = Some (PStr "MessageAlbum") ∧
    postmap !! "albumId" = Some (PStr "ALBUM1") ∧
    postmap !! "totalImages" = Some (PInt 2) ∧
    postmap !! "caption" = Some (PStr "hi") ∧
    postmap !! "images" = Some (PImages [m1; m2]) ∧
    GetPendingCount (elapse sample_format 5000000000 w2) = 0.
Proof.
  assert (H1 : Caption seed_hi = "hi") by reflexivity.
  assert (H2 : Caption seed_blank = "") by reflexivity.
  assert (H3 : MyCli seed_hi = Some cli1) by reflexivity.
  assert (H4 : 0 ≤ 1000000000 < debounce (InitAlbumBuffer 5 true 0))
    by (vm_compute; split; congruence).
  assert (H5 : debounce (InitAlbumBuffer 5 true 0) ≤ 5000000000)
    by (vm_compute; congruence).
  split; [exact (conj H1 (conj H2 (conj H3 (conj H4 H5))))|].
  exact (album1_scenario sample_format 5 true 0 m1 m2 seed_hi seed_blank cli1
           1000000000 5000000000 H1 H2 H3 H4 H5).
Defined.

(** The claim C3 as stated fails on the type tag: in the scenario the one
    payload delivered has type "MessageAlbum", not "Aggregate". *)
Lemma album1_type_is_not_Aggregate :
  ∃ w cli postmap,
    run sample_format
      [OpAdd "ALBUM1" m1 (Some seed_hi); OpElapse 1000000000;
       OpAdd "ALBUM1" m2 (Some seed_blank); OpElapse 5000000000] fresh
      = Ok ([("ALBUM1", true); ("ALBUM1", false)], w) ∧
    since fresh w =
      [LogNewAlbum "ALBUM1" (ChatJID seed_hi) 5;
       LogMessageAdded "ALBUM1" "m1" 1;
       LogMessageAdded "ALBUM1" "m2" 2;
       LogFlushing "ALBUM1" 2 (ChatJID seed_hi);
       SendEventWithWebHook cli postmap ""] ∧
    postmap !! "type" = Some (PStr "MessageAlbum") ∧
    postmap !! "type" ≠ Some (PStr "Aggregate").
Proof.
  eexists _, _, _. split; [vm_compute; reflexivity|].
  split; [vm_compute; reflexivity|].
  split; vm_compute; congruence.
Qed.

Lemma wasCreated_once_per_group_witness :
  (AddMessage "ALBUM1" m1 (Some seed_hi) fresh = Ok (true, opened) ∧
   run sample_format more_calls opened
     = Ok (run_flags more_calls opened, run_world more_calls opened) ∧
   filter (removes "ALBUM1") (since opened (run_world more_calls opened)) = []) ∧
  (true = true ↔ albums fresh !! "ALBUM1" = None) ∧
  ∀ b', ("ALBUM1", b') ∈ run_flags more_calls opened → b' = false.
Proof.
  assert (H1 : AddMessage "ALBUM1" m1 (Some seed_hi) fresh = Ok (true, opened))
    by (vm_compute; reflexivity).
  assert (H2 : run sample_format more_calls opened
               = Ok (run_flags more_calls opened, run_world more_calls opened))
    by (vm_compute; reflexivity).
  assert (H3 : filter (removes "ALBUM1")
                 (since opened (run_world more_calls opened)) = [])
    by (vm_compute; reflexivity).
  split; [exact (conj H1 (conj H2 H3))|].
  exact (wasCreated_once_per_group sample_format "ALBUM1" m1 (Some seed_hi)
           fresh true opened more_calls _ _ H1 H2 H3).
Defined.

Lemma caption_first_nonempty_witness :
  (AddMessage "ALBUM1" m1 (Some seed_blank) fresh
     = Ok (true, run_world [OpAdd "ALBUM1" m1 (Some seed_blank)] fresh) ∧
   run sample_format
     [OpAdd "ALBUM1" m2 (Some seed_hi);
      OpAdd "ALBUM1" m2 (Some (seed "later" None))]
     (run_world [OpAdd "ALBUM1" m1 (Some seed_blank)] fresh)
     = Ok ([("ALBUM1", false); ("ALBUM1", false)],
           run_world [OpAdd "ALBUM1" m1 (Some seed_blank);
                      OpAdd "ALBUM1" m2 (Some seed_hi);
                      OpAdd "ALBUM1" m2 (Some (seed "later" None))] fresh)) ∧
  ∃ a,
    albums (run_world [OpAdd "ALBUM1" m1 (Some seed_blank);
                       OpAdd "ALBUM1" m2 (Some seed_hi);
                       OpAdd "ALBUM1" m2 (Some (seed "later" None))] fresh)
      !! "ALBUM1" = Some a ∧
    Caption a = "hi".
Proof.
  assert (H1 : AddMessage "ALBUM1" m1 (Some seed_blank) fresh
     = Ok (true, run_world [OpAdd "ALBUM1" m1 (Some seed_blank)] fresh))
    by (vm_compute; reflexivity).
  assert (H2 : run sample_format
     [OpAdd "ALBUM1" m2 (Some seed_hi);
      OpAdd "ALBUM1" m2 (Some (seed "later" None))]
     (run_world [OpAdd "ALBUM1" m1 (Some seed_blank)] fresh)
     = Ok ([("ALBUM1", false); ("ALBUM1", false)],
           run_world [OpAdd "ALBUM1" m1 (Some seed_blank);
                      OpAdd "ALBUM1" m2 (Some seed_hi);
                      OpAdd "ALBUM1" m2 (Some (seed "later" None))] fresh))
    by (vm_compute; reflexivity).
  split; [exact (conj H1 H2)|].
  destruct (caption_first_nonempty sample_format "ALBUM1" m1 seed_blank fresh
              _ _ _ _ H1 H2) as (a & Hk & Hc & _).
  { vm_compute. reflexivity. }
  exists a. exact (conj Hk Hc).
Defined.

Lemma cancel_discards_group_witness :
  (wf opened ∧ orphans opened = [] ∧
   albums opened !! "ALBUM1" = Some (album_at "ALBUM1" opened)) ∧
  albums (CancelAlbum "ALBUM1" opened) = delete "ALBUM1" (albums opened) ∧
  GetPendingCount (CancelAlbum "ALBUM1" opened) = GetPendingCount opened - 1 ∧
  since opened (CancelAlbum "ALBUM1" opened) = [LogCancelled "ALBUM1"] ∧
  (∀ now, "ALBUM1" ∉ due_keys now (CancelAlbum "ALBUM1" opened)) ∧
  flushAlbum sample_format "ALBUM1" (CancelAlbum "ALBUM1" opened)
    = CancelAlbum "ALBUM1" opened.
Proof.
  assert (H1 : wf opened) by apply wf_opened.
  assert (H2 : orphans opened = []) by (vm_compute; reflexivity).
  assert (H3 : albums opened !! "ALBUM1" = Some (album_at "ALBUM1" opened))
    by (vm_compute; reflexivity).
  split; [exact (conj H1 (conj H2 H3))|].
  destruct (cancel_discards_group sample_format "ALBUM1" opened _ H1 H2 H3)
    as (Ha & Hn & Hs & _ & Hd & Hf & _).
  exact (conj Ha (conj Hn (conj Hs (conj Hd Hf)))).
Defined.

Lemma flush_cancel_absent_noop_witness :
  albums fresh !! "ALBUM1" = None ∧
  flushAlbum sample_format "ALBUM1" fresh = fresh ∧
  CancelAlbum "ALBUM1" fresh = fresh.
Proof.
  assert (H1 : albums fresh !! "ALBUM1" = None) by reflexivity.
  split; [exact H1|].
  destruct (flush_cancel_absent_noop sample_format "ALBUM1" fresh H1)
    as (Hf & Hc & _).
  exact (conj Hf Hc).
Defined.

Lemma flush_nil_client_drops_witness :
  (albums opened_nil_client !! "ALBUM1"
     = Some (album_at "ALBUM1" opened_nil_client) ∧
   MyCli (album_at "ALBUM1" opened_nil_client) = None) ∧
  albums (flushAlbum sample_format "ALBUM1" opened_nil_client)
    = delete "ALBUM1" (albums opened_nil_client) ∧
  GetPendingCount (flushAlbum sample_format "ALBUM1" opened_nil_client)
    = GetPendingCount opened_nil_client - 1 ∧
  since opened_nil_client (flushAlbum sample_format "ALBUM1" opened_nil_client)
    = [LogFlushing "ALBUM1"
         (len (Messages (album_at "ALBUM1" opened_nil_client)))
         (ChatJID (album_at "ALBUM1" opened_nil_client))].
Proof.
  assert (H1 : albums opened_nil_client !! "ALBUM1"
               = Some (album_at "ALBUM1" opened_nil_client))
    by (vm_compute; reflexivity).
  assert (H2 : MyCli (album_at "ALBUM1" opened_nil_client) = None)
    by (vm_compute; reflexivity).
  split; [exact (conj H1 H2)|].
  destruct (flush_nil_client_drops sample_format "ALBUM1" opened_nil_client _
              H1 H2) as (Ha & Hn & Hs & _).
  exact (conj Ha (conj Hn Hs)).
Defined.

(** The claim C9 as stated fails when no metadata is supplied: the first
    call for a key with a nil [metadata] dereferences it and panics. *)
Lemma AddMessage_nil_metadata_panics :
  AddMessage "ALBUM1" m1 None fresh = Panic.
Proof. vm_compute. reflexivity. Qed.

(** ** Further properties of the buffer *)

Lemma wrap64_range z : - 2 ^ 63 ≤ wrap64 z < 2 ^ 63.
Proof.
  unfold wrap64. pose proof (Z.mod_pos_bound (z + 2 ^ 63) (2 ^ 64)). lia.
Qed.

Lemma wrap64_fits z : wrap64 z = z ↔ - 2 ^ 63 ≤ z < 2 ^ 63.
Proof.
  split.
  - intros <-. apply wrap64_range.
  - intros H. unfold wrap64. rewrite Z.mod_small; lia.
Qed.

(** X9: the debounce duration [time.Duration(waitSeconds) * time.Second] is
    an int64 count of nanoseconds: it is the product itself exactly when the
    product fits in 64 bits, which it does for every wait up to 9223372036
    seconds in absolute value, and only then. *)
Theorem debounce_exact_iff_fits w :
  - 2 ^ 63 ≤ debounce w < 2 ^ 63 ∧
  (debounce w = waitSeconds w * 1000000000 ↔
   - 9223372036 ≤ waitSeconds w ≤ 9223372036).
Proof.
  unfold debounce, time_Second. split; [apply wrap64_range|].
  rewrite wrap64_fits. lia.
Qed.

(** X11: the found flag of [HasParentMessageKey] is true exactly when the
    returned id is not empty, so a caller may test either. *)
Theorem HasParentMessageKey_flag_iff_id (ctx : gomap) :
  (HasParentMessageKey ctx).2 = nonempty (HasParentMessageKey ctx).1.
Proof.
  destruct (HasParentMessageKey_cases ctx) as [(id & Hp & ->) | ->]; [|done].
  destruct Hp as (m & assoc & parent & _ & _ & _ & _ & Hne). simpl.
  symmetry. by apply nonempty_true.
Qed.

(** X12: [HasParentMessageKey] reads nothing of the envelope but the entry
    [messageAssociation]: two envelopes that agree there give the same
    result, whatever else they hold. *)
Theorem HasParentMessageKey_local (m m' : gmap string value) :
  m !! "messageAssociation" = m' !! "messageAssociation" →
  HasParentMessageKey (Some m) = HasParentMessageKey (Some m').
Proof. intros H. unfold HasParentMessageKey, index. by rewrite H. Qed.

Lemma HasParentMessageKey_local_witness :
  ({[ "messageAssociation" := VStr "x" ]} : gmap string value)
    !! "messageAssociation"
  = ({[ "messageAssociation" := VStr "x"; "other" := VNum 1 ]}
       : gmap string value) !! "messageAssociation" ∧
  HasParentMessageKey (Some {[ "messageAssociation" := VStr "x" ]})
  = HasParentMessageKey
      (Some {[ "messageAssociation" := VStr "x"; "other" := VNum 1 ]}).
Proof.
  assert (H : ({[ "messageAssociation" := VStr "x" ]} : gmap string value)
                !! "messageAssociation"
              = ({[ "messageAssociation" := VStr "x"; "other" := VNum 1 ]}
                   : gmap string value) !! "messageAssociation")
    by (vm_compute; reflexivity).
  split; [exact H|].
  exact (HasParentMessageKey_local _ _ H).
Defined.

(** X1: a returning call of [AddMessage] raises the number of pending
    albums by one when it creates the album, and leaves it as it is when it
    extends one. *)
Theorem AddMessage_pending_count k msg md w b w' :
  AddMessage k msg md w = Ok (b, w') →
  GetPendingCount w' = GetPendingCount w + (if b then 1 else 0).
Proof.
  intros H. unfold GetPendingCount.
  destruct (albums w !! k) as [a|] eqn:Hk.
  - destruct (AddMessage_existing_inv _ _ _ _ _ _ _ Hk H)
      as (a' & Hb & Hal & _).
    subst b. rewrite Hal, map_size_insert_Some by (by eexists). lia.
  - destruct (AddMessage_new_inv _ _ _ _ _ _ Hk H) as (m & -> & _).
    destruct (AddMessage_new k msg m w Hk) as (a' & w1 & H1 & Hal & _).
    rewrite H1 in H. injection H as <- <-. rewrite Hal.
    by apply size_insert_absent.
Qed.

Lemma AddMessage_pending_count_witness :
  AddMessage "ALBUM1" m1 (Some seed_hi) fresh = Ok (true, opened) ∧
  GetPendingCount opened = GetPendingCount fresh + 1.
Proof.
  assert (H : AddMessage "ALBUM1" m1 (Some seed_hi) fresh = Ok (true, opened))
    by (vm_compute; reflexivity).
  split; [exact H|].
  exact (AddMessage_pending_count "ALBUM1" m1 (Some seed_hi) fresh true opened H).
Defined.

Section MoreFacts.

Variable Format_RFC3339 : Time → string.

Abbreviation flushAlbum := (flushAlbum Format_RFC3339).
Abbreviation elapse := (elapse Format_RFC3339).
Abbreviation callback := (callback Format_RFC3339).
Abbreviation play := (play Format_RFC3339).
Abbreviation exec := (exec Format_RFC3339).
Abbreviation run := (run Format_RFC3339).
Abbreviation flush_effects := (flush_effects Format_RFC3339).
Abbreviation build_payload := (build_payload Format_RFC3339).

(** ** What time does to the store *)

Lemma elapse_lookup k dt w :
  waitSeconds (elapse dt w) = waitSeconds w ∧
  clock (elapse dt w) = clock w + dt ∧
  albums (elapse dt w) !! k =
    if decide (k ∈ due_keys (clock w + dt) w) then None else albums w !! k.
Proof.
  destruct (elapse_gen Format_RFC3339 k (λ _, false) (λ _, True))
    with (dt := dt) (w := w) as (_ & Hws & Hcl & new & _ & H); try done.
  { intros _ k' a _ _ _. apply filter_nil_Forall.
    apply Forall_forall. done. }
  split; [done|]. split; [done|].
  destruct (decide (k ∈ due_keys (clock w + dt) w)); by destruct H.
Qed.

Lemma flush_all_runtime ks : ∀ w,
  orphans (foldl (λ w k', flushAlbum k' w) w ks) = orphans w ∧
  started (foldl (λ w k', flushAlbum k' w) w ks) = started w ∧
  enabled (foldl (λ w k', flushAlbum k' w) w ks) = enabled w.
Proof.
  induction ks as [|k ks IH]; intros w; cbn [foldl]; [done|].
  destruct (IH (flushAlbum k w)) as (-> & -> & ->).
  apply flushAlbum_runtime.
Qed.

(** Time passing leaves behind the timers not yet due, starts no callback
    that it does not run, and touches no setting. *)
Lemma elapse_runtime dt w :
  orphans (elapse dt w)
    = filter (λ kt, expired (clock w + dt) kt.2 = false) (orphans w) ∧
  started (elapse dt w) = started w ∧
  enabled (elapse dt w) = enabled w.
Proof.
  unfold elapse.
  by destruct (flush_all_runtime (due_keys (clock w + dt) w) (expire dt w))
    as (-> & -> & ->).
Qed.

(** X4: when time passes, the albums whose timers are due by the new time
    leave the store and all others stay as they are: the store afterwards is
    the store before, restricted to the albums that are not due.  (The
    state is one the buffer can reach: no album removed earlier has left an
    armed timer behind.) *)
Theorem elapse_removes_due_albums dt w :
  orphans w = [] →
  albums (elapse dt w) =
  filter (λ ka, due (clock w + dt) ka.2 = false) (albums w).
Proof.
  intros Ho. apply map_eq. intros k.
  destruct (elapse_lookup k dt w) as (_ & _ & ->).
  apply option_eq. intros a'. rewrite map_lookup_filter_Some. simpl.
  destruct (decide (k ∈ due_keys (clock w + dt) w)) as [Hin|Hin].
  - split; [discriminate|]. intros [Hk Hd]. exfalso. revert Hin.
    apply due_keys_not_due; [done|]. intros a Ha. congruence.
  - split; [|by intros [? _]]. intros Hk. split; [done|].
    destruct (due (clock w + dt) a') eqn:Hd; [|done].
    destruct Hin. by eapply due_keys_due.
Qed.




(** X2: a call for one key leaves every other key alone: after
    [AddMessage], [CancelAlbum] or [flushAlbum] for [k'], the album stored
    under a different key [k] is the one stored before, and nothing has
    been flushed, cancelled or delivered for [k]. *)
Theorem other_key_untouched k k' w :
  k' ≠ k →
  wf w →
  (∀ msg md b w',
     AddMessage k' msg md w = Ok (b, w') →
     albums w' !! k = albums w !! k ∧ filter (about k) (since w w') = []) ∧
  (albums (CancelAlbum k' w) !! k = albums w !! k ∧
   filter (about k) (since w (CancelAlbum k' w)) = []) ∧
  (albums (flushAlbum k' w) !! k = albums w !! k ∧
   filter (about k) (since w (flushAlbum k' w)) = []).
Proof.
  intros Hne Hwf. split; [|split].
  - intros msg md b w' H.
    destruct (AddMessage_inv _ _ _ _ _ _ H)
      as (a' & new & Hal & _ & _ & _ & Htr & Hq).
    rewrite Hal, lookup_insert_ne by done. split; [done|].
    rewrite (since_app _ _ _ Htr). by apply quiet_all_filter.
  - destruct (albums w !! k') as [a'|] eqn:E.
    + destruct (CancelAlbum_present k' w a' E) as (Hal & _ & _ & Htr).
      rewrite Hal, lookup_delete_ne by done. split; [done|].
      rewrite (since_app _ _ _ Htr).
      rewrite filter_cons, decide_False; [done|].
      unfold about, removes. simpl. rewrite bool_decide_eq_false_2 by done.
      simpl. tauto.
    + rewrite CancelAlbum_absent by done. by rewrite since_refl.
  - destruct (albums w !! k') as [a'|] eqn:E.
    + destruct (flushAlbum_present Format_RFC3339 k' w a' E)
        as (Hal & _ & _ & Htr).
      rewrite Hal, lookup_delete_ne by done. split; [done|].
      rewrite (since_app _ _ _ Htr).
      apply flush_effects_other; [by apply Hwf|done].
    + rewrite flushAlbum_absent by done. by rewrite since_refl.
Qed.

(** X3: a message that arrives after its album was flushed or cancelled
    starts a new album under the same id: [AddMessage] returns true, and the
    new album holds that message alone, with the caption and the client of
    this call and a timer set for one debounce duration from now. *)
Theorem late_message_starts_new_album k msg md w w0 :
  w0 = flushAlbum k w ∨ w0 = CancelAlbum k w →
  ∃ a w',
    AddMessage k msg (Some md) w0 = Ok (true, w') ∧
    albums w' !! k = Some a ∧
    Messages a = [msg] ∧ Caption a = Caption md ∧ MyCli a = MyCli md ∧
    Timer a = Some (AfterFunc (debounce w) (clock w)) ∧
    GetPendingCount w' = GetPendingCount w0 + 1.
Proof.
  intros Hw0.
  assert (H0 : albums w0 !! k = None ∧ waitSeconds w0 = waitSeconds w
               ∧ clock w0 = clock w).
  { destruct Hw0 as [-> | ->]; destruct (albums w !! k) as [a0|] eqn:E.
    - destruct (flushAlbum_present Format_RFC3339 k w a0 E)
        as (-> & -> & -> & _).
      by rewrite lookup_delete_eq.
    - by rewrite flushAlbum_absent.
    - destruct (CancelAlbum_present k w a0 E) as (-> & -> & -> & _).
      by rewrite lookup_delete_eq.
    - by rewrite CancelAlbum_absent. }
  destruct H0 as (Hk & Hws & Hcl).
  destruct (AddMessage_new k msg md w0 Hk)
    as (a & w' & H & Hal & _ & _ & _ & _ & _ & _ & _ & Hc & _ & _ & _ & Hcli
        & Hm & Ht).
  exists a, w'. split; [done|]. rewrite Hal, lookup_insert_eq.
  repeat split; try done.
  - rewrite Ht, Hcl. f_equal. f_equal. by apply debounce_eq.
  - unfold GetPendingCount. rewrite Hal. by apply size_insert_absent.
Qed.

(** ** The window restarts, unless the callback is already on its way *)

Lemma strip_Timer_eq a b : strip a = strip b → Timer a = Timer b → a = b.
Proof.
  destruct a, b. unfold strip. simpl. intros [= -> -> -> -> -> -> -> -> -> ->] ->.
  done.
Qed.

(** X10: what a call of [AddMessage] for an open album does to the album's
    window.  The call appends its message and arms the timer for the full
    debounce duration from now.  If the timer had not expired, the window
    restarts: for as long as less than the debounce duration has passed the
    album stays open, with the new message at its end, whether or not a
    callback runs, and once the duration has passed the callback flushes
    it, with that message.  If the timer had expired and its callback was
    waiting to run, the call does not recall it: as soon as the callback
    runs it flushes the album, new message included, and no timer is left
    to call back for the key. *)
Theorem AddMessage_restarts_window k msg md w a t b w1 dt :
  wf w →
  orphans w = [] →
  albums w !! k = Some a →
  Timer a = Some t →
  AddMessage k msg md w = Ok (b, w1) →
  0 ≤ dt →
  ∃ a1,
    albums w1 !! k = Some a1 ∧ Messages a1 = Messages a ++ [msg] ∧
    Timer a1 = Some (AfterFunc (debounce w) (clock w)) ∧
    (k ∉ started w →
       if decide (debounce w ≤ dt)
       then albums (callback k (tick dt w1)) !! k = None ∧
            filter (about k) (since w1 (callback k (tick dt w1)))
              = flush_effects k a1
       else albums (callback k (tick dt w1)) !! k = Some a1 ∧
            filter (about k) (since w1 (callback k (tick dt w1))) = []) ∧
    (k ∈ started w →
       albums (callback k w1) !! k = None ∧
       since w1 (callback k w1) = flush_effects k a1 ∧
       ∀ now, k ∉ due_keys now (callback k w1)).
Proof.
  intros Hwf Ho Hk Ht Hadd Hdt.
  destruct (AddMessage_existing_inv _ _ _ _ _ _ _ Hk Hadd)
    as (a1 & _ & Hal & Hws & Hcl & _ & _ & Hm & _ & Ht1).
  rewrite Ht in Ht1.
  destruct (AddMessage_runtime _ _ _ _ _ _ Hadd) as (Ho1 & Hs1 & _).
  rewrite Ho in Ho1.
  assert (Hk1 : albums w1 !! k = Some a1) by (by rewrite Hal, lookup_insert_eq).
  assert (Hwf1 : wf w1) by (by eapply wf_AddMessage).
  exists a1. split; [done|]. split; [done|]. split; [done|]. split.
  - intros Hn. rewrite <- Hs1 in Hn.
    pose proof (tick_armed Format_RFC3339 k (debounce w) (clock w) w1 w1 a1 dt
                  Ho1 Hk1 Ht1 Hn) as Hg.
    rewrite since_refl in Hg. specialize (Hg eq_refl).
    destruct (callback_group Format_RFC3339 k (debounce w) (clock w) (strip a1)
                w1 (tick dt w1) (wf_tick dt w1 Hwf1)) as [H|H]; [|done| |].
    { exists []. by rewrite app_nil_r. }
    + destruct H as (a' & Ha' & Hc' & Ht' & Hlt & _ & Hf).
      destruct (callback_frame Format_RFC3339 k (tick dt w1)) as (_ & Hclk & _).
      rewrite Hclk in Hlt.
      change (clock (tick dt w1)) with (clock w1 + dt) in Hlt.
      rewrite Hcl in Hlt. rewrite decide_False.
      2:{ revert Hlt. unfold deadline. destruct (Z.leb_spec (debounce w) 0); lia. }
      rewrite (strip_Timer_eq a' a1) in Ha' by congruence. done.
    + destruct H as (Ha' & Hle & _ & Hf).
      destruct (callback_frame Format_RFC3339 k (tick dt w1)) as (_ & Hclk & _).
      rewrite Hclk in Hle.
      change (clock (tick dt w1)) with (clock w1 + dt) in Hle.
      rewrite Hcl in Hle. rewrite decide_True.
      2:{ revert Hle. unfold deadline. destruct (Z.leb_spec (debounce w) 0); lia. }
      split; [done|]. rewrite Hf. unfold strip.
      apply flush_effects_Timer.
  - intros Hin. rewrite <- Hs1 in Hin.
    destruct (callback_frame Format_RFC3339 k w1)
      as (_ & _ & Ho2 & _ & _ & Hal2 & _ & Htr2).
    rewrite decide_True in Hal2 by done. rewrite decide_True in Htr2 by done.
    rewrite Hk1 in Htr2. simpl in Htr2.
    assert (Hgone : albums (callback k w1) !! k = None).
    { rewrite Hal2. apply lookup_delete_eq. }
    split; [done|]. split; [by rewrite (since_app _ _ _ Htr2)|].
    intros now. apply due_keys_not_due; [congruence|].
    intros a' Ha'. congruence.
Qed.

(** ** No timer is left behind *)

Lemma exec_orphans o w fl w1 :
  exec o w = Ok (fl, w1) → orphans w = [] → orphans w1 = [].
Proof.
  destruct o as [k msg md|k|dt]; simpl; intros Hex Ho.
  - destruct (AddMessage k msg md w) as [[b w']|] eqn:E; [|discriminate].
    simpl in Hex. injection Hex as <- <-.
    apply AddMessage_runtime in E as (-> & _). done.
  - injection Hex as <- <-. by destruct (CancelAlbum_runtime k w) as (-> & _).
  - injection Hex as <- <-. destruct (elapse_runtime dt w) as (-> & _).
    by rewrite Ho.
Qed.

Lemma run_orphans ops : ∀ w flags w',
  run ops w = Ok (flags, w') → orphans w = [] → orphans w' = [].
Proof.
  induction ops as [|o ops IH]; intros w flags w' Hrun Ho.
  - by injection Hrun as <- <-.
  - apply run_cons_inv in Hrun as (fl1 & w1 & fl2 & H1 & H2 & ->).
    eapply IH; [done|]. by eapply exec_orphans.
Qed.

(** X15: every removal of an album stops its timer first, so the runtime
    is never left with an armed timer whose album is gone: that holds of a
    buffer just initialized, and every run and every schedule keeps it.  A
    callback therefore only ever starts for an album that is open as its
    timer expires. *)
Theorem no_timer_left_behind :
  (∀ ws en now, orphans (InitAlbumBuffer ws en now) = []) ∧
  (∀ ops w flags w',
     orphans w = [] → run ops w = Ok (flags, w') → orphans w' = []) ∧
  (∀ evs w res w',
     orphans w = [] → play evs w = Ok (res, w') → orphans w' = []) ∧
  (∀ w k dt,
     orphans w = [] → k ∈ due_keys (clock w + dt) w →
     ∃ a, albums w !! k = Some a ∧ due (clock w + dt) a = true).
Proof.
  split; [done|]. split; [|split].
  - intros ops w flags w' Ho Hrun. by eapply run_orphans.
  - intros evs w res w' Ho Hplay.
    by destruct (play_frame Format_RFC3339 _ _ _ _ Hplay) as (_ & _ & _ & _ & H & _);
      apply H.
  - intros w k dt Ho Hin. by apply (tick_key k dt w Ho).
Qed.


(** ** Runs are schedules in which no callback waits *)





(** ** The store's invariant *)

Lemma deadline_bound d c : deadline d c ≤ c + Z.max 0 d.
Proof. unfold deadline. destruct (Z.leb_spec d 0); lia. Qed.

Lemma open_ok_Init ws en now : open_ok (InitAlbumBuffer ws en now).
Proof. intros k a H. simpl in H. by rewrite lookup_empty in H. Qed.

Lemma exec_open_ok o w fl w1 :
  open_ok w → forward o → exec o w = Ok (fl, w1) → open_ok w1.
Proof.
  intros Hok Hfw Hex. destruct o as [k msg md|k|dt]; simpl in Hex.
  - destruct (AddMessage k msg md w) as [[b w']|] eqn:E; [|discriminate].
    simpl in Hex. injection Hex as <- <-.
    assert (Hnew : ∃ a', albums w' = <[k := a']> (albums w) ∧
              waitSeconds w' = waitSeconds w ∧ clock w' = clock w ∧
              AlbumID a' = k ∧ Messages a' ≠ [] ∧
              Timer a' = Some (AfterFunc (debounce w) (clock w))).
    { destruct (albums w !! k) as [a|] eqn:Hk.
      - destruct (AddMessage_existing_inv _ _ _ _ _ _ _ Hk E)
          as (a' & _ & Hal & Hws & Hcl & _ & Hg & Hm & _ & Ht).
        destruct (Hok k a Hk) as (Hid & _ & t & Ht0 & _).
        rewrite Ht0 in Ht. exists a'.
        split; [done|]. split; [done|]. split; [done|]. split; [|split].
        + destruct Hg as (-> & _). done.
        + rewrite Hm. intros [_ ?]%app_eq_nil. discriminate.
        + done.
      - destruct (AddMessage_new_inv _ _ _ _ _ _ Hk E) as (m & -> & _).
        destruct (AddMessage_new k msg m w Hk)
          as (a' & w1 & H1 & Hal & Hws & Hcl & _ & Hid & _ & _ & _ & _ & _ & _
              & _ & _ & Hm & Ht).
        rewrite H1 in E. injection E as <- <-.
        exists a'.
        split; [done|]. split; [done|]. split; [done|]. split; [done|].
        split; [by rewrite Hm|done]. }
    destruct Hnew as (a' & Hal & Hws & Hcl & Hid & Hm & Ht).
    intros k0 a0 H0. rewrite Hal in H0.
    rewrite (debounce_eq w w' Hws), Hcl.
    destruct (decide (k = k0)) as [<-|Hne].
    + rewrite lookup_insert_eq in H0. injection H0 as <-.
      split; [done|]. split; [done|]. eexists. split; [exact Ht|].
      split; [done|]. apply deadline_bound.
    + rewrite lookup_insert_ne in H0 by done. by apply Hok.
  - injection Hex as <- <-. intros k0 a0 H0.
    destruct (albums w !! k) as [a|] eqn:Hk.
    + destruct (CancelAlbum_present k w a Hk) as (Hal & Hws & Hcl & _).
      rewrite Hal in H0. apply lookup_delete_Some in H0 as [_ H0].
      rewrite (debounce_eq _ _ Hws), Hcl. by apply Hok.
    + rewrite CancelAlbum_absent in * by done. by apply Hok.
  - injection Hex as <- <-. simpl in Hfw. intros k0 a0 H0.
    destruct (elapse_lookup k0 dt w) as (Hws & Hcl & Hal).
    rewrite Hal in H0.
    destruct (decide (k0 ∈ due_keys (clock w + dt) w)); [done|].
    destruct (Hok k0 a0 H0) as (Hid & Hm & t & Ht & Hact & Hwhen).
    split; [done|]. split; [done|]. exists t. split; [done|]. split; [done|].
    rewrite (debounce_eq _ _ Hws), Hcl. lia.
Qed.


(** ** Every webhook call *)

Lemma flush_effects_payload_ok k a :
  Messages a ≠ [] → Forall payload_ok (flush_effects k a).
Proof.
  intros Hm. unfold flush_effects. constructor; [done|].
  destruct (MyCli a) as [cli|]; [|constructor].
  constructor; [|constructor]. simpl. split; [done|]. split; [done|].
  exists (Messages a). by repeat split.
Qed.

Lemma flush_all_Forall (Q : effect → Prop) ks : ∀ w,
  (∀ k a, albums w !! k = Some a → Forall Q (flush_effects k a)) →
  ∃ new,
    trace (foldl (λ w k', flushAlbum k' w) w ks) = trace w ++ new ∧
    Forall Q new.
Proof.
  induction ks as [|k' ks IH]; intros w HQ; cbn [foldl].
  { exists []. by rewrite app_nil_r. }
  destruct (albums w !! k') as [a'|] eqn:E.
  - destruct (flushAlbum_present Format_RFC3339 k' w a' E)
      as (Hal & _ & _ & Htr).
    destruct (IH (flushAlbum k' w)) as (new & Htr' & Hnew).
    { intros k a H. rewrite Hal in H.
      apply lookup_delete_Some in H as [_ H]. by eapply HQ. }
    exists (flush_effects k' a' ++ new). split.
    + by rewrite Htr', Htr, app_assoc.
    + apply Forall_app. split; [by eapply HQ|done].
  - rewrite flushAlbum_absent by done. by apply IH.
Qed.

Lemma elapse_Forall (Q : effect → Prop) dt w :
  (∀ k a, albums w !! k = Some a → Forall Q (flush_effects k a)) →
  ∃ new, trace (elapse dt w) = trace w ++ new ∧ Forall Q new.
Proof.
  intros HQ. unfold elapse.
  destruct (flush_all_Forall Q (due_keys (clock w + dt) w) (expire dt w))
    as (new & Htr & Hnew); [|by exists new].
  intros k a H. rewrite expire_lookup in H.
  destruct (albums w !! k) as [a0|] eqn:E; [|done]. injection H as <-.
  destruct (expire_album_same Format_RFC3339 k (clock w + dt) a0) as [_ ->].
  by eapply HQ.
Qed.

Lemma exec_payload_ok o w fl w1 :
  (∀ k a, albums w !! k = Some a → Messages a ≠ []) →
  exec o w = Ok (fl, w1) →
  Forall payload_ok (since w w1).
Proof.
  intros Hne Hex. destruct o as [k msg md|k|dt]; simpl in Hex.
  - destruct (AddMessage k msg md w) as [[b w']|] eqn:E; [|discriminate].
    simpl in Hex. injection Hex as <- <-.
    destruct (albums w !! k) as [a|] eqn:Hk.
    + destruct (AddMessage_existing_inv _ _ _ _ _ _ _ Hk E)
        as (a' & _ & _ & _ & _ & Htr & _).
      rewrite (since_app _ _ _ Htr). by repeat constructor.
    + destruct (AddMessage_new_inv _ _ _ _ _ _ Hk E) as (m & -> & _).
      destruct (AddMessage_new k msg m w Hk)
        as (a' & w1 & H1 & _ & _ & _ & Htr & _).
      rewrite H1 in E. injection E as <- <-.
      rewrite (since_app _ _ _ Htr). by repeat constructor.
  - injection Hex as <- <-. destruct (albums w !! k) as [a|] eqn:Hk.
    + destruct (CancelAlbum_present k w a Hk) as (_ & _ & _ & Htr).
      rewrite (since_app _ _ _ Htr). by repeat constructor.
    + rewrite CancelAlbum_absent by done. rewrite since_refl. constructor.
  - injection Hex as <- <-.
    destruct (elapse_Forall payload_ok dt w) as (new & Htr & Hnew).
    { intros k a H. apply flush_effects_payload_ok. by eapply Hne. }
    by rewrite (since_app _ _ _ Htr).
Qed.

(** X7: every call of the webhook sender made in a run is well formed: the
    path is empty, the type is "MessageAlbum", there is at least one image,
    and [totalImages] is the number of images sent.  No album is ever
    delivered empty. *)
Theorem every_webhook_call_ok ops : ∀ w flags w',
  open_ok w →
  Forall forward ops →
  run ops w = Ok (flags, w') →
  Forall payload_ok (since w w').
Proof.
  induction ops as [|o ops IH]; intros w flags w' Hok Hfw Hrun.
  - injection Hrun as <- <-. rewrite since_refl. constructor.
  - apply Forall_cons in Hfw as [Ho Hfw].
    apply run_cons_inv in Hrun as (fl1 & w1 & fl2 & H1 & H2 & ->).
    destruct (exec_frame _ _ _ _ _ H1) as (_ & _ & new1 & Htr1).
    destruct (run_frame _ _ _ _ _ H2) as (_ & _ & new2 & Htr2).
    destruct (since_split _ _ _ _ _ Htr1 Htr2) as (S1 & S2 & ->).
    apply Forall_app. split.
    + rewrite <- S1. eapply exec_payload_ok; [|done].
      intros k a H. by destruct (Hok k a H) as (_ & ? & _).
    + rewrite <- S2. eapply IH; [|done|done]. by eapply exec_open_ok.
Qed.

(** ** No message is lost or sent twice *)







(** ** Runs that cannot panic, and what no run changes *)

Lemma exec_metadata_total o w :
  with_metadata o = true → ∃ fl w1, exec o w = Ok (fl, w1).
Proof.
  destruct o as [k msg [md|]|k|dt]; simpl; intros H; try discriminate; eauto.
  destruct (AddMessage_Some_total k msg md w) as (b & w1 & ->). simpl. eauto.
Qed.

(** X13: a run whose calls of [AddMessage] all carry metadata never panics:
    it returns, with one result for each call of [AddMessage], in call
    order. *)
Theorem run_with_metadata_returns ops : ∀ w,
  Forall (λ o, with_metadata o = true) ops →
  ∃ flags w', run ops w = Ok (flags, w') ∧ flags.*1 = add_keys ops.
Proof.
  induction ops as [|o ops IH]; intros w Hmd.
  - by exists [], w.
  - apply Forall_cons in Hmd as [Ho Hmd].
    destruct (exec_metadata_total o w Ho) as (fl1 & w1 & H1).
    destruct (IH w1 Hmd) as (fl2 & w' & H2 & Hkeys).
    exists (fl1 ++ fl2), w'. split.
    + cbn [run]. rewrite H1. simpl. by rewrite H2.
    + rewrite fmap_app, Hkeys. destruct o as [k msg md|k|dt]; simpl in H1.
      * destruct (AddMessage k msg md w) as [[b w2]|]; [|discriminate].
        simpl in H1. by injection H1 as <- <-.
      * by injection H1 as <- <-.
      * by injection H1 as <- <-.
Qed.

Lemma elapse_enabled dt w : enabled (elapse dt w) = enabled w.
Proof. apply elapse_runtime. Qed.

Lemma exec_config o w fl w1 :
  exec o w = Ok (fl, w1) →
  enabled w1 = enabled w ∧ (forward o → clock w ≤ clock w1).
Proof.
  destruct o as [k msg md|k|dt]; simpl; intros Hex.
  - destruct (AddMessage k msg md w) as [[b w']|] eqn:E; [|discriminate].
    simpl in Hex. injection Hex as <- <-.
    destruct (AddMessage_inv _ _ _ _ _ _ E) as (a & new & _ & _ & _ & Hcl & _).
    split; [|intros _; lia]. by apply AddMessage_runtime in E as (_ & _ & ?).
  - injection Hex as <- <-. split; [apply CancelAlbum_runtime|]. intros _.
    destruct (albums w !! k) as [a|] eqn:Hk.
    + destruct (CancelAlbum_present k w a Hk) as (_ & _ & -> & _). lia.
    + rewrite CancelAlbum_absent by done. lia.
  - injection Hex as <- <-. split; [apply elapse_enabled|].
    simpl. intros Hdt. destruct (elapse_lookup "" dt w) as (_ & -> & _). lia.
Qed.

(** X14: no run changes the configuration or rewrites the log: the wait and
    the enabled flag are those the buffer was initialized with, the trace
    only grows at its end, and the clock does not go back if time does
    not. *)
Theorem run_keeps_configuration ops : ∀ w flags w',
  run ops w = Ok (flags, w') →
  waitSeconds w' = waitSeconds w ∧ IsEnabled w' = IsEnabled w ∧
  debounce w' = debounce w ∧
  trace w' = trace w ++ since w w' ∧
  (Forall forward ops → clock w ≤ clock w').
Proof.
  induction ops as [|o ops IH]; intros w flags w' Hrun.
  - injection Hrun as <- <-. rewrite since_refl, app_nil_r.
    repeat split; done.
  - apply run_cons_inv in Hrun as (fl1 & w1 & fl2 & H1 & H2 & ->).
    destruct (exec_frame _ _ _ _ _ H1) as (Hws1 & _ & new1 & Htr1).
    destruct (exec_config _ _ _ _ H1) as (Hen1 & Hcl1).
    destruct (IH _ _ _ H2) as (Hws2 & Hen2 & _ & Htr2 & Hcl2).
    split; [congruence|]. split; [unfold IsEnabled in *; congruence|].
    split; [apply debounce_eq; congruence|]. split.
    + destruct (since_split _ _ _ _ _ Htr1 Htr2) as (_ & _ & ->).
      by rewrite Htr2, Htr1, app_assoc.
    + intros [Ho Hfw]%Forall_cons. specialize (Hcl1 Ho).
      specialize (Hcl2 Hfw). lia.
Qed.

End MoreFacts.

(** ** The further properties on sample runs *)

Lemma other_key_untouched_witness :
  ("ALBUM2" ≠ "ALBUM1" ∧ wf opened) ∧
  albums (CancelAlbum "ALBUM2" opened) !! "ALBUM1" = albums opened !! "ALBUM1" ∧
  albums (flushAlbum sample_format "ALBUM2" opened) !! "ALBUM1"
    = albums opened !! "ALBUM1".
Proof.
  assert (H1 : "ALBUM2" ≠ "ALBUM1") by discriminate.
  assert (H2 : wf opened) by apply wf_opened.
  split; [exact (conj H1 H2)|].
  destruct (other_key_untouched sample_format "ALBUM1" "ALBUM2" opened H1 H2)
    as (_ & (Hc & _) & (Hf & _)).
  exact (conj Hc Hf).
Defined.

Lemma late_message_starts_new_album_witness :
  (flushAlbum sample_format "ALBUM1" opened
     = flushAlbum sample_format "ALBUM1" opened ∨
   flushAlbum sample_format "ALBUM1" opened = CancelAlbum "ALBUM1" opened) ∧
  ∃ a w',
    AddMessage "ALBUM1" m2 (Some seed_blank)
      (flushAlbum sample_format "ALBUM1" opened) = Ok (true, w') ∧
    albums w' !! "ALBUM1" = Some a ∧ Messages a = [m2].
Proof.
  assert (H : flushAlbum sample_format "ALBUM1" opened
                = flushAlbum sample_format "ALBUM1" opened ∨
              flushAlbum sample_format "ALBUM1" opened
                = CancelAlbum "ALBUM1" opened) by (left; exact eq_refl).
  split; [exact H|].
  destruct (late_message_starts_new_album sample_format "ALBUM1" m2 seed_blank
              opened _ H) as (a & w' & Ha & Hk & Hm & _).
  exists a, w'. exact (conj Ha (conj Hk Hm)).
Defined.

Lemma elapse_removes_due_albums_witness :
  orphans opened = [] ∧
  albums (elapse sample_format 5000000000 opened) =
  filter (λ ka : string * AlbumData,
            due (clock opened + 5000000000) ka.2 = false) (albums opened).
Proof.
  assert (H : orphans opened = []) by (vm_compute; reflexivity).
  split; [exact H|].
  exact (elapse_removes_due_albums sample_format 5000000000 opened H).
Defined.

Lemma AddMessage_restarts_window_witness :
  (wf opened ∧ orphans opened = [] ∧
   albums opened !! "ALBUM1" = Some (album_at "ALBUM1" opened) ∧
   Timer (album_at "ALBUM1" opened)
     = Some {| when := 5000000000; active := true |} ∧
   AddMessage "ALBUM1" m2 (Some seed_blank) opened
     = Ok (false, run_world [OpAdd "ALBUM1" m2 (Some seed_blank)] opened) ∧
   0 ≤ 1000000000) ∧
  ∃ a1,
    albums (run_world [OpAdd "ALBUM1" m2 (Some seed_blank)] opened) !! "ALBUM1"
      = Some a1 ∧
    Messages a1 = Messages (album_at "ALBUM1" opened) ++ [m2] ∧
    Timer a1 = Some (AfterFunc (debounce opened) (clock opened)).
Proof.
  assert (H1 : wf opened) by apply wf_opened.
  assert (H2 : orphans opened = []) by (vm_compute; reflexivity).
  assert (H3 : albums opened !! "ALBUM1" = Some (album_at "ALBUM1" opened))
    by (vm_compute; reflexivity).
  assert (H4 : Timer (album_at "ALBUM1" opened)
               = Some {| when := 5000000000; active := true |})
    by (vm_compute; reflexivity).
  assert (H5 : AddMessage "ALBUM1" m2 (Some seed_blank) opened
     = Ok (false, run_world [OpAdd "ALBUM1" m2 (Some seed_blank)] opened))
    by (vm_compute; reflexivity).
  assert (H6 : 0 ≤ 1000000000) by lia.
  split; [exact (conj H1 (conj H2 (conj H3 (conj H4 (conj H5 H6)))))|].
  destruct (AddMessage_restarts_window sample_format "ALBUM1" m2
              (Some seed_blank) opened _ _ false _ 1000000000
              H1 H2 H3 H4 H5 H6)
    as (a1 & Hk & Hm & Ht & _).
  exists a1. exact (conj Hk (conj Hm Ht)).
Defined.


Lemma no_timer_left_behind_witness :
  orphans fresh = [] ∧
  run sample_format interleaved fresh
    = Ok (run_flags interleaved fresh, run_world interleaved fresh) ∧
  orphans (run_world interleaved fresh) = [].
Proof.
  assert (H1 : orphans fresh = []) by reflexivity.
  assert (H2 : run sample_format interleaved fresh
               = Ok (run_flags interleaved fresh, run_world interleaved fresh))
    by (vm_compute; reflexivity).
  destruct (no_timer_left_behind sample_format) as (_ & Hrun & _).
  exact (conj H1 (conj H2 (Hrun interleaved fresh _ _ H1 H2))).
Defined.


Lemma forward_interleaved : Forall forward interleaved.
Proof. repeat constructor; simpl; lia. Qed.

Lemma run_interleaved :
  run sample_format interleaved fresh
  = Ok (run_flags interleaved fresh, run_world interleaved fresh).
Proof. vm_compute. reflexivity. Qed.

Lemma every_webhook_call_ok_witness :
  (open_ok fresh ∧ Forall forward interleaved ∧
   run sample_format interleaved fresh
     = Ok (run_flags interleaved fresh, run_world interleaved fresh)) ∧
  Forall payload_ok (since fresh (run_world interleaved fresh)).
Proof.
  assert (H1 : open_ok fresh) by apply open_ok_Init.
  assert (H2 : Forall forward interleaved) by apply forward_interleaved.
  assert (H3 : run sample_format interleaved fresh
     = Ok (run_flags interleaved fresh, run_world interleaved fresh))
    by apply run_interleaved.
  split; [exact (conj H1 (conj H2 H3))|].
  exact (every_webhook_call_ok sample_format interleaved fresh _ _ H1 H2 H3).
Defined.


Example interleaved_delivers_each_album_its_own :
  delivered_images "ALBUM1" (trace (run_world interleaved fresh)) = [m1; m2] ∧
  delivered_images "ALBUM2" (trace (run_world interleaved fresh)) = [m2; m1].
Proof. split; vm_compute; reflexivity. Qed.

Lemma run_with_metadata_returns_witness :
  Forall (λ o, with_metadata o = true) interleaved ∧
  ∃ flags w',
    run sample_format interleaved fresh = Ok (flags, w') ∧
    flags.*1 = add_keys interleaved.
Proof.
  assert (H : Forall (λ o, with_metadata o = true) interleaved)
    by (repeat constructor).
  split; [exact H|].
  exact (run_with_metadata_returns sample_format interleaved fresh H).
Defined.

Lemma run_keeps_configuration_witness :
  run sample_format interleaved fresh
    = Ok (run_flags interleaved fresh, run_world interleaved fresh) ∧
  waitSeconds (run_world interleaved fresh) = waitSeconds fresh ∧
  IsEnabled (run_world interleaved fresh) = IsEnabled fresh.
Proof.
  assert (H : run sample_format interleaved fresh
     = Ok (run_flags interleaved fresh, run_world interleaved fresh))
    by apply run_interleaved.
  split; [exact H|].
  destruct (run_keeps_configuration sample_format interleaved fresh _ _ H)
    as (Hws & Hen & _).
  exact (conj Hws Hen).
Defined.
